(** * Turtle adventure: the entity update, collision and spawn core

    A shallow embedding of [turtle_adventure.py].  Python floats are read as
    real numbers (no rounding, no overflow) and Python ints as [Z]; the
    attributes annotated [int] in the source (screen size, Home's position and
    size, an enemy's size, counters) are integers here and are injected into
    the reals where the source mixes them with floats.  Methods that touch the
    session, raise or draw random numbers live in a small state-and-error
    monad over the session record. *)

From Stdlib Require Import Reals Lra ZArith Lia List Bool String.
Import ListNotations.

#[local] Open Scope R_scope.

(** ** Python comparisons on numbers, as booleans *)

Module Py.

Definition lt (a b : R) : bool := if Rlt_dec a b then true else false.
Definition le (a b : R) : bool := if Rle_dec a b then true else false.
Definition gt (a b : R) : bool := lt b a.
Definition ge (a b : R) : bool := le b a.
Definition ne (a b : R) : bool := if Req_dec_T a b then false else true.

End Py.

(** ** Data model *)

(** [Waypoint]: the target the player walks to, and its [__active] flag. *)
Record Waypoint := mkWaypoint {
  wp_active : bool;
  wp_x : R;
  wp_y : R
}.

(** [Home]: [pos : tuple[int, int]] and [size : int]. *)
Record Home := mkHome {
  home_x : Z;
  home_y : Z;
  home_size : Z
}.

(** [Player]: the turtle's position and the player's speed. *)
Record Player := mkPlayer {
  player_x : R;
  player_y : R;
  player_speed : R
}.

(** The four strings [FencingEnemy.__direction] takes. *)
Inductive direction := Right | Down | Left | Up.

(** The enemy classes, each with its private mutable fields. *)
Inductive variant :=
| DemoEnemy
| RandomWalkEnemy (dx dy speed : R)
| ChasingEnemy (speed : R)
| FencingEnemy (speed : R) (dir : direction)
| TeleportingEnemy (teleport_cooldown teleport_counter : Z).

(** [Enemy]: the fields of the abstract class and the subclass state. *)
Record Enemy := mkEnemy {
  enemy_x : R;
  enemy_y : R;
  enemy_size : Z;
  enemy_color : string;
  enemy_state : variant
}.

(** What the session's element list holds. *)
Inductive Element :=
| ElemWaypoint
| ElemHome
| ElemPlayer
| ElemEnemy (e : Enemy).

(** The callbacks handed to [after]. *)
Inductive callback :=
| cb_create_random_enemy
| cb_create_chasing_enemy
| cb_create_fencing_enemy
| cb_create_teleporting_enemy.

(** The two terminal banners. *)
Inductive banner := YouWin | YouLose.

(** [TurtleAdventureGame], with the state of its collaborators: the element
    list and the pending timers of the event loop, the banners drawn so far,
    and the random source ([draws] is the sequence of raw numbers the
    generator will deliver, [cursor] how many were consumed). *)
Record Game := mkGame {
  level : Z;
  screen_width : Z;
  screen_height : Z;
  waypoint : Waypoint;
  player : Player;
  home : Home;
  enemies : list Enemy;
  elements : list Element;
  running : bool;
  banners : list banner;
  clock : Z;
  timers : list (Z * callback);
  draws : nat -> Z;
  cursor : nat
}.

(** ** Outcomes and the session monad *)

Inductive exn := ValueError | ZeroDivisionError.

Inductive outcome (A : Type) :=
| Ret (a : A) (g : Game)
| Raise (e : exn)
| OutOfFuel.
Arguments Ret {A} a g.
Arguments Raise {A} e.
Arguments OutOfFuel {A}.

Definition M (A : Type) := Game -> outcome A.

Definition ret {A} (a : A) : M A := fun g => Ret a g.

Definition bind {A B} (m : M A) (k : A -> M B) : M B :=
  fun g => match m g with
           | Ret a g' => k a g'
           | Raise e => Raise e
           | OutOfFuel => OutOfFuel
           end.

Definition raise {A} (e : exn) : M A := fun _ => Raise e.
Definition get : M Game := fun g => Ret g g.
Definition put (g : Game) : M unit := fun _ => Ret tt g.
Definition when (b : bool) (m : M unit) : M unit := if b then m else ret tt.

Declare Scope game_scope.
Delimit Scope game_scope with game.
Notation "x <- m ;; k" := (bind m (fun x => k))
  (at level 61, m at next level, right associativity) : game_scope.
Notation "m ;; k" := (bind m (fun _ => k))
  (at level 61, right associativity) : game_scope.
#[local] Open Scope game_scope.

(** Field updates of the session record. *)
Definition with_waypoint (w : Waypoint) (g : Game) : Game :=
  mkGame (level g) (screen_width g) (screen_height g) w (player g) (home g)
         (enemies g) (elements g) (running g) (banners g) (clock g) (timers g)
         (draws g) (cursor g).

Definition with_player (p : Player) (g : Game) : Game :=
  mkGame (level g) (screen_width g) (screen_height g) (waypoint g) p (home g)
         (enemies g) (elements g) (running g) (banners g) (clock g) (timers g)
         (draws g) (cursor g).

Definition with_enemies (l : list Enemy) (g : Game) : Game :=
  mkGame (level g) (screen_width g) (screen_height g) (waypoint g) (player g)
         (home g) l (elements g) (running g) (banners g) (clock g) (timers g)
         (draws g) (cursor g).

Definition with_elements (l : list Element) (g : Game) : Game :=
  mkGame (level g) (screen_width g) (screen_height g) (waypoint g) (player g)
         (home g) (enemies g) l (running g) (banners g) (clock g) (timers g)
         (draws g) (cursor g).

Definition with_banner (b : banner) (g : Game) : Game :=
  mkGame (level g) (screen_width g) (screen_height g) (waypoint g) (player g)
         (home g) (enemies g) (elements g) false (banners g ++ [b]) (clock g)
         (timers g) (draws g) (cursor g).

Definition with_timers (c : Z) (l : list (Z * callback)) (g : Game) : Game :=
  mkGame (level g) (screen_width g) (screen_height g) (waypoint g) (player g)
         (home g) (enemies g) (elements g) (running g) (banners g) c l
         (draws g) (cursor g).

Definition with_cursor (n : nat) (g : Game) : Game :=
  mkGame (level g) (screen_width g) (screen_height g) (waypoint g) (player g)
         (home g) (enemies g) (elements g) (running g) (banners g) (clock g)
         (timers g) (draws g) n.

(** ** The [random] module *)

(** [random.randint(lo, hi)]: an integer of the closed range, [ValueError]
    on an empty range.  The raw draw is reduced into the range, so every
    sequence of results is the image of some [draws]. *)
Definition randint (lo hi : Z) : M Z := fun g =>
  if (hi <? lo)%Z then Raise ValueError
  else Ret (lo + draws g (cursor g) mod (hi - lo + 1))%Z
           (with_cursor (S (cursor g)) g).

(** [random.choice] on a two-element list. *)
Definition choice2 {A} (a b : A) : M A := fun g =>
  Ret (if (draws g (cursor g) mod 2 =? 0)%Z then a else b)
      (with_cursor (S (cursor g)) g).

(** ** Waypoint *)

Definition Waypoint_activate (x y : R) : M unit := fun g =>
  Ret tt (with_waypoint (mkWaypoint true x y) g).

Definition Waypoint_deactivate : M unit := fun g =>
  Ret tt (with_waypoint
            (mkWaypoint false (wp_x (waypoint g)) (wp_y (waypoint g))) g).

(** ** Home *)

(** [Home.contains]: the closed square of side [size] around the position. *)
Definition Home_contains (self : Home) (x y : R) : bool :=
  let x1 := IZR (home_x self) - IZR (home_size self) / 2 in
  let x2 := IZR (home_x self) + IZR (home_size self) / 2 in
  let y1 := IZR (home_y self) - IZR (home_size self) / 2 in
  let y2 := IZR (home_y self) + IZR (home_size self) / 2 in
  (Py.le x1 x && Py.le x x2) && (Py.le y1 y && Py.le y y2).

(** ** The session's own operations *)

(** Modelled from the spec: [add_element] and [stop] belong to the game
    library the session class extends.  Registering an element brings it
    under the regular update and render cycle; stopping halts the tick loop. *)
Definition add_element (e : Element) : M unit := fun g =>
  Ret tt (with_elements (elements g ++ [e]) g).

(** [TurtleAdventureGame.add_enemy]. *)
Definition add_enemy (enemy : Enemy) : M unit :=
  (fun g => Ret tt (with_enemies (enemies g ++ [enemy]) g));;
  add_element (ElemEnemy enemy).

(** [game_over_win] and [game_over_lose]: stop, then draw the banner. *)
Definition game_over_win : M unit := fun g => Ret tt (with_banner YouWin g).
Definition game_over_lose : M unit := fun g => Ret tt (with_banner YouLose g).

(** [after(ms, callback)] of the event loop: the callback is due [ms]
    milliseconds from now, behind the timers already due at that time. *)
Fixpoint insert_timer (t : Z) (cb : callback) (l : list (Z * callback))
  : list (Z * callback) :=
  match l with
  | [] => [(t, cb)]
  | (t', cb') :: l' =>
      if (t <? t')%Z then (t, cb) :: l
      else (t', cb') :: insert_timer t cb l'
  end.

Definition after (ms : Z) (cb : callback) : M unit := fun g =>
  Ret tt (with_timers (clock g) (insert_timer (clock g + ms) cb (timers g)) g).

(** ** Enemy *)

(** [Enemy.hits_player]: both chained comparisons are strict. *)
Definition hits_player (g : Game) (self : Enemy) : bool :=
  (Py.lt (enemy_x self - IZR (enemy_size self) / 2) (player_x (player g))
   && Py.lt (player_x (player g)) (enemy_x self + IZR (enemy_size self) / 2))
  &&
  (Py.lt (enemy_y self - IZR (enemy_size self) / 2) (player_y (player g))
   && Py.lt (player_y (player g)) (enemy_y self + IZR (enemy_size self) / 2)).

Definition set_x (x : R) (self : Enemy) : Enemy :=
  mkEnemy x (enemy_y self) (enemy_size self) (enemy_color self) (enemy_state self).

Definition set_y (y : R) (self : Enemy) : Enemy :=
  mkEnemy (enemy_x self) y (enemy_size self) (enemy_color self) (enemy_state self).

Definition set_state (st : variant) (self : Enemy) : Enemy :=
  mkEnemy (enemy_x self) (enemy_y self) (enemy_size self) (enemy_color self) st.

(** The check every [update] ends with. *)
Definition check_hit (self : Enemy) : M unit :=
  g <- get;;
  when (hits_player g self) game_over_lose.

(** Python's true division. *)
Definition truediv (a b : R) : M R :=
  if Req_dec_T b 0 then raise ZeroDivisionError else ret (a / b).

(** ** Player *)

(** The drawing turtle, with its trigonometry read over the reals:
    [setheading(towards(tx, ty))] points the turtle along the unit vector to
    the target ([towards] of the turtle's own position is heading 0, east),
    [forward(d)] advances by [d] along the heading, and [distance] is the
    Euclidean one. *)
Definition turtle_distance (x y tx ty : R) : R :=
  sqrt ((tx - x) * (tx - x) + (ty - y) * (ty - y)).

Definition turtle_towards (x y tx ty : R) : R * R :=
  let d := turtle_distance x y tx ty in
  if Req_dec_T d 0 then (1, 0) else ((tx - x) / d, (ty - y) / d).

Definition turtle_forward (heading : R * R) (d : R) (p : Player) : Player :=
  mkPlayer (player_x p + fst heading * d) (player_y p + snd heading * d)
           (player_speed p).

(** [Player.update]. *)
Definition Player_update : M unit :=
  g <- get;;
  when (Home_contains (home g) (player_x (player g)) (player_y (player g)))
       game_over_win;;
  g <- get;;
  let turtle := player g in
  let waypoint := waypoint g in
  if wp_active waypoint then
    let heading :=
      turtle_towards (player_x turtle) (player_y turtle)
                     (wp_x waypoint) (wp_y waypoint) in
    let turtle := turtle_forward heading (player_speed turtle) turtle in
    put (with_player turtle g);;
    when (Py.lt (turtle_distance (player_x turtle) (player_y turtle)
                                 (wp_x waypoint) (wp_y waypoint))
                (player_speed turtle))
         Waypoint_deactivate
  else ret tt.

(** ** Enemy variants *)

(** [ChasingEnemy.update]; [speed] is the private [__speed]. *)
Definition ChasingEnemy_update (speed : R) (self : Enemy) : M Enemy :=
  g <- get;;
  let player_x := player_x (player g) in
  let player_y := player_y (player g) in
  let enemy_speed := speed in
  let dx := player_x - enemy_x self in
  let dy := player_y - enemy_y self in
  let distance := sqrt (dx * dx + dy * dy) in
  self <- (if Py.gt distance 0 then
             normalized_dx <- truediv dx distance;;
             normalized_dy <- truediv dy distance;;
             let self := set_x (enemy_x self + normalized_dx * enemy_speed) self in
             ret (set_y (enemy_y self + normalized_dy * enemy_speed) self)
           else ret self);;
  check_hit self;;
  ret self.

(** [FencingEnemy.update]; [speed] and [dir] are the private [__speed] and
    [__direction]. *)
Definition FencingEnemy_update (speed : R) (dir : direction) (self : Enemy)
  : M Enemy :=
  g <- get;;
  let home_x := IZR (home_x (home g)) in
  let home_y := IZR (home_y (home g)) in
  let square_size := 80 in
  let square_left := home_x - square_size / 2 in
  let square_right := home_x + square_size / 2 in
  let square_top := home_y - square_size / 2 in
  let square_bottom := home_y + square_size / 2 in
  let self :=
    match dir with
    | Right =>
        let self := set_x (enemy_x self + speed) self in
        if Py.ge (enemy_x self) square_right
        then set_state (FencingEnemy speed Down) (set_x square_right self)
        else self
    | Down =>
        let self := set_y (enemy_y self + speed) self in
        if Py.ge (enemy_y self) square_bottom
        then set_state (FencingEnemy speed Left) (set_y square_bottom self)
        else self
    | Left =>
        let self := set_x (enemy_x self - speed) self in
        if Py.le (enemy_x self) square_left
        then set_state (FencingEnemy speed Up) (set_x square_left self)
        else self
    | Up =>
        let self := set_y (enemy_y self - speed) self in
        if Py.le (enemy_y self) square_top
        then set_state (FencingEnemy speed Right) (set_y square_top self)
        else self
    end in
  check_hit self;;
  ret self.

(** [TeleportingEnemy.teleport]. *)
Definition TeleportingEnemy_teleport (self : Enemy) : M Enemy :=
  choice <- choice2 "player"%string "home"%string;;
  g <- get;;
  if String.eqb choice "player" then
    ox <- randint (-200) 200;;
    let self := set_x (player_x (player g) + IZR ox) self in
    oy <- randint (-200) 200;;
    ret (set_y (player_y (player g) + IZR oy) self)
  else
    ox <- randint (-200) 200;;
    let self := set_x (IZR (home_x (home g)) + IZR ox) self in
    oy <- randint (-200) 200;;
    ret (set_y (IZR (home_y (home g)) + IZR oy) self).

(** [TeleportingEnemy.update]; [cooldown] and [counter] are the private
    [__teleport_cooldown] and [__teleport_counter]. *)
Definition TeleportingEnemy_update (cooldown counter : Z) (self : Enemy)
  : M Enemy :=
  let counter := (counter + 1)%Z in
  let self := set_state (TeleportingEnemy cooldown counter) self in
  self <- (if (cooldown <=? counter)%Z then
             self <- TeleportingEnemy_teleport self;;
             ret (set_state (TeleportingEnemy cooldown 0) self)
           else ret self);;
  check_hit self;;
  ret self.


(** Enemies of one class in a collection. *)
Definition is_random_walk (e : Enemy) : bool :=
  match enemy_state e with RandomWalkEnemy _ _ _ => true | _ => false end.

Definition is_chasing (e : Enemy) : bool :=
  match enemy_state e with ChasingEnemy _ => true | _ => false end.

Definition is_fencing (e : Enemy) : bool :=
  match enemy_state e with FencingEnemy _ _ => true | _ => false end.

Definition is_teleporting (e : Enemy) : bool :=
  match enemy_state e with TeleportingEnemy _ _ => true | _ => false end.

Definition count (p : Enemy -> bool) (l : list Enemy) : nat :=
  List.length (filter p l).

Definition element_is (p : Enemy -> bool) (el : Element) : bool :=
  match el with ElemEnemy e => p e | _ => false end.

(** ** Construction and spawning *)

Section GameLibrary.

(** The position the game library's element constructor gives a new
    element: a parameter, the library being external to the module. *)
Variables element_x element_y : R.

(** [Enemy.__init__], with the private fields the subclass sets. *)
Definition Enemy_init (size : Z) (color : string) (st : variant) : Enemy :=
  mkEnemy element_x element_y size color st.

Definition DemoEnemy_init (size : Z) (color : string) : Enemy :=
  Enemy_init size color DemoEnemy.

Definition RandomWalkEnemy_init (size : Z) (color : string) : Enemy :=
  Enemy_init size color (RandomWalkEnemy 0 0 3).

Definition ChasingEnemy_init (size : Z) (color : string) : Enemy :=
  Enemy_init size color (ChasingEnemy 4).

Definition FencingEnemy_init (size : Z) (color : string) : Enemy :=
  Enemy_init size color (FencingEnemy 4 Right).

Definition TeleportingEnemy_init (size : Z) (color : string) : Enemy :=
  Enemy_init size color (TeleportingEnemy 60 0).

(** [for _ in range(n)]. *)
Fixpoint for_range (n : nat) (body : M unit) : M unit :=
  match n with
  | O => ret tt
  | S n' => body;; for_range n' body
  end.

(** [EnemyGenerator.create_random_enemy]. *)
Definition create_random_enemy : M unit :=
  let random_enemy := RandomWalkEnemy_init 20 "red" in
  random_enemy <-
    (if Py.ne (enemy_x random_enemy) 100 && Py.ne (enemy_y random_enemy) 100
     then
       x <- randint 0 700;;
       let random_enemy := set_x (IZR x) random_enemy in
       y <- randint 0 400;;
       ret (set_y (IZR y) random_enemy)
     else ret random_enemy);;
  add_element (ElemEnemy random_enemy);;
  after 1000 cb_create_random_enemy.

(** [EnemyGenerator.create_chasing_enemy]. *)
Definition create_chasing_enemy : M unit :=
  let chasing_enemy := ChasingEnemy_init 20 "purple" in
  g <- get;;
  x <- randint 0 (screen_width g);;
  let chasing_enemy := set_x (IZR x) chasing_enemy in
  y <- randint 0 (screen_height g);;
  let chasing_enemy := set_y (IZR y) chasing_enemy in
  add_enemy chasing_enemy;;
  after 1000 cb_create_chasing_enemy.

(** One roll of a fencing placement. *)
Definition fencing_roll (max_distance_from_home : Z) (fencing_enemy : Enemy)
  : M Enemy :=
  g <- get;;
  x <- randint (home_x (home g) - max_distance_from_home)
               (home_x (home g) + max_distance_from_home);;
  let fencing_enemy := set_x (IZR x) fencing_enemy in
  y <- randint (home_y (home g) - max_distance_from_home)
               (home_y (home g) + max_distance_from_home);;
  ret (set_y (IZR y) fencing_enemy).

(** The [while self.__game.home.contains(...)] loop; [fuel] bounds the
    number of re-rolls. *)
Fixpoint fencing_reroll (fuel : nat) (max_distance_from_home : Z)
  (fencing_enemy : Enemy) : M Enemy :=
  fun g =>
    if Home_contains (home g) (enemy_x fencing_enemy) (enemy_y fencing_enemy)
    then match fuel with
         | O => OutOfFuel
         | S fuel' =>
             (fencing_enemy <- fencing_roll max_distance_from_home fencing_enemy;;
              fencing_reroll fuel' max_distance_from_home fencing_enemy) g
         end
    else Ret fencing_enemy g.

(** The placement of one fencing enemy: the body of the [for] loop up to
    the registration. *)
Definition fencing_placement (fuel : nat) : M Enemy :=
  let max_distance_from_home := 25%Z in
  let fencing_enemy := FencingEnemy_init 20 "blue" in
  g <- get;;
  fencing_enemy <-
    (if Py.ne (enemy_x fencing_enemy) (IZR (home_x (home g)))
        && Py.ne (enemy_y fencing_enemy) (IZR (home_y (home g)))
     then fencing_roll max_distance_from_home fencing_enemy
     else ret fencing_enemy);;
  fencing_reroll fuel max_distance_from_home fencing_enemy.

(** [EnemyGenerator.create_fencing_enemy]. *)
Definition create_fencing_enemy (fuel : nat) : M unit :=
  for_range 15
    (fencing_enemy <- fencing_placement fuel;;
     add_enemy fencing_enemy).

(** [EnemyGenerator.create_teleporting_enemy]. *)
Definition create_teleporting_enemy : M unit :=
  for_range 5
    (let teleporting_enemy := TeleportingEnemy_init 20 "black" in
     g <- get;;
     teleporting_enemy <-
       (if Py.ne (enemy_x teleporting_enemy) 100
           && Py.ne (enemy_y teleporting_enemy) 100
        then
          x <- randint 0 (screen_width g);;
          let teleporting_enemy := set_x (IZR x) teleporting_enemy in
          y <- randint 0 (screen_height g);;
          ret (set_y (IZR y) teleporting_enemy)
        else ret teleporting_enemy);;
     add_enemy teleporting_enemy);;
  after 500 cb_create_teleporting_enemy.

(** [EnemyGenerator.__init__]: the four timer chains. *)
Definition EnemyGenerator_init : M unit :=
  after 1000 cb_create_random_enemy;;
  after 2000 cb_create_chasing_enemy;;
  after 3000 cb_create_fencing_enemy;;
  after 4000 cb_create_teleporting_enemy.

(** The session as [__init__] leaves it and [init_game] fills it: no enemy,
    the three fixed elements registered, the generator's timers pending. *)
Definition init_game (screen_width screen_height level : Z)
  (draws : nat -> Z) : outcome unit :=
  let home := mkHome (screen_width - 100) (screen_height / 2) 20 in
  let g :=
    mkGame level screen_width screen_height
           (mkWaypoint false element_x element_y)
           (mkPlayer 50 (IZR (screen_height / 2)) 5)
           home [] [] true [] 0 [] draws O in
  (add_element ElemWaypoint;;
   add_element ElemHome;;
   add_element ElemPlayer;;
   EnemyGenerator_init) g.

(** The call a due timer makes. *)
Definition fire (fuel : nat) (cb : callback) : M unit :=
  match cb with
  | cb_create_random_enemy => create_random_enemy
  | cb_create_chasing_enemy => create_chasing_enemy
  | cb_create_fencing_enemy => create_fencing_enemy fuel
  | cb_create_teleporting_enemy => create_teleporting_enemy
  end.

(** The event loop's timers up to time [t_end], in due order; [steps]
    bounds the number of firings. *)
Fixpoint run_timers (steps fuel : nat) (t_end : Z) : M unit :=
  fun g =>
    match timers g with
    | [] => Ret tt (with_timers t_end [] g)
    | (t, cb) :: rest =>
        if (t <=? t_end)%Z then
          match steps with
          | O => OutOfFuel
          | S steps' =>
              (put (with_timers t rest g);;
               fire fuel cb;;
               run_timers steps' fuel t_end) g
          end
        else Ret tt (with_timers t_end (timers g) g)
    end.

End GameLibrary.

(** ** Summaries of a session, for the statements *)

(** The session after a callback: enemies and elements appended, the clock,
    the timers and the random cursor as given, everything else as before. *)
Definition evolve (g : Game) (en : list Enemy) (el : list Element)
  (clk : Z) (tm : list (Z * callback)) (c : nat) : Game :=
  mkGame (level g) (screen_width g) (screen_height g) (waypoint g) (player g)
         (home g) (enemies g ++ en) (elements g ++ el) (running g) (banners g)
         clk tm (draws g) c.

(** A position the fencing rule can leave an enemy at: a rolled candidate
    within [25] of Home on both axes, or the position the enemy was created
    at when that shares a coordinate with Home (no first roll is made then). *)
Definition fencing_position (x0 y0 : R) (hm : Home) (e : Enemy) : Prop :=
  (exists x y : Z,
      (home_x hm - 25 <= x <= home_x hm + 25)%Z
      /\ (home_y hm - 25 <= y <= home_y hm + 25)%Z
      /\ enemy_x e = IZR x /\ enemy_y e = IZR y)
  \/ ((x0 = IZR (home_x hm) \/ y0 = IZR (home_y hm))
      /\ enemy_x e = x0 /\ enemy_y e = y0).

(** What the spawn callbacks need to return: an arena of non-negative size
    for the placements over the arena, and draws whose fencing candidates
    all fall outside Home. *)
Definition ready (g : Game) : Prop :=
  (0 <= screen_width g)%Z /\ (0 <= screen_height g)%Z
  /\ forall n m,
       Home_contains (home g)
         (IZR (home_x (home g) - 25
               + draws g n mod (home_x (home g) + 25 - (home_x (home g) - 25) + 1)))
         (IZR (home_y (home g) - 25
               + draws g m mod (home_y (home g) + 25 - (home_y (home g) - 25) + 1)))
       = false.

(** The timers a callback leaves behind when it fires at time [now]. *)
Definition reschedule (cb : callback) (now : Z) (tm : list (Z * callback))
  : list (Z * callback) :=
  match cb with
  | cb_create_random_enemy => insert_timer (now + 1000) cb tm
  | cb_create_chasing_enemy => insert_timer (now + 1000) cb tm
  | cb_create_fencing_enemy => tm
  | cb_create_teleporting_enemy => insert_timer (now + 500) cb tm
  end.

(** Head counts: random-walk, chasing, fencing and teleporting enemies in
    [enemies], and random-walk enemies among the registered elements. *)
Definition census (g : Game) : nat * nat * nat * nat * nat :=
  (count is_random_walk (enemies g), count is_chasing (enemies g),
   count is_fencing (enemies g), count is_teleporting (enemies g),
   List.length (filter (element_is is_random_walk) (elements g))).

Definition census_add (a b : nat * nat * nat * nat * nat) :=
  let '(a1, a2, a3, a4, a5) := a in
  let '(b1, b2, b3, b4, b5) := b in
  (a1 + b1, a2 + b2, a3 + b3, a4 + b4, a5 + b5)%nat.

(** What one firing of a callback adds to the census. *)
Definition census_of (cb : callback) : nat * nat * nat * nat * nat :=
  match cb with
  | cb_create_random_enemy => (0, 0, 0, 0, 1)
  | cb_create_chasing_enemy => (0, 1, 0, 0, 0)
  | cb_create_fencing_enemy => (0, 0, 15, 0, 0)
  | cb_create_teleporting_enemy => (0, 0, 0, 5, 0)
  end%nat.

(** A session around given entities, for concrete runs. *)
Definition session (w h : Z) (p : Player) (wp : Waypoint) (hm : Home)
  (draws : nat -> Z) : Game :=
  mkGame 1 w h wp p hm [] [] true [] 0 [] draws O.

(** Concrete entities the statements below are tried on. *)
Definition far_home : Home := mkHome 700 250 20.
Definition idle_waypoint : Waypoint := mkWaypoint false 0 0.
Definition zero_draws : nat -> Z := fun _ => 0%Z.

Definition duel : Game :=
  session 800 500 (mkPlayer (219 / 2) 100 5) idle_waypoint far_home zero_draws.

Definition red_enemy : Enemy := mkEnemy 100 100 20 "red" DemoEnemy.

Definition black_enemy : Enemy :=
  mkEnemy 300 200 20 "black" (TeleportingEnemy 60 0).

Definition blue_enemy : Enemy :=
  mkEnemy 738 225 20 "blue" (FencingEnemy 4 Right).

Definition purple_enemy : Enemy :=
  mkEnemy (219 / 2) 97 20 "purple" (ChasingEnemy 4).


(** The player at the origin, no waypoint set yet. *)
Definition at_origin : Game :=
  session 800 500 (mkPlayer 0 0 5) idle_waypoint far_home zero_draws.

(** A 500 by 300 arena whose generator delivers 600 at every draw. *)
Definition small_arena : Game :=
  session 500 300 (mkPlayer 50 150 5) idle_waypoint (mkHome 400 150 20)
          (fun _ => 600%Z).

(** ** The remaining enemy classes and the dispatch of [update] *)

(** [random.choice] on a list that is not empty. *)
Definition choice {A} (first : A) (rest : list A) : M A := fun g =>
  Ret (nth (Z.to_nat (draws g (cursor g) mod Z.of_nat (S (List.length rest))))
           (first :: rest) first)
      (with_cursor (S (cursor g)) g).

(** [DemoEnemy.update]. *)
Definition DemoEnemy_update (self : Enemy) : M Enemy :=
  let self := set_x (enemy_x self + 1) self in
  let self := set_y (enemy_y self + 1) self in
  check_hit self;;
  ret self.

(** [RandomWalkEnemy.update]; [dx], [dy] and [speed] are the private
    [__dx], [__dy] and [__speed]. *)
Definition RandomWalkEnemy_update (dx dy speed : R) (self : Enemy) : M Enemy :=
  g <- get;;
  let self := set_x (enemy_x self + dx) self in
  let self := set_y (enemy_y self + dy) self in
  let dx :=
    if Py.ge (enemy_x self + IZR (enemy_size self) / 2) (IZR (screen_width g))
    then dx * -1
    else if Py.le (enemy_x self - IZR (enemy_size self) / 2) 0
         then dx * -1
         else dx in
  let dy :=
    if Py.ge (enemy_y self + IZR (enemy_size self) / 2) (IZR (screen_height g))
    then dy * -1
    else if Py.le (enemy_y self - IZR (enemy_size self) / 2) 0
         then dy * -1
         else dy in
  let self := set_state (RandomWalkEnemy dx dy speed) self in
  check_hit self;;
  ret self.

(** [RandomWalkEnemy.__choose_random_direction], which [create] calls. *)
Definition choose_random_direction (speed : R) (self : Enemy) : M Enemy :=
  direction <- choice "up"%string ["down"; "left"; "right"]%string;;
  if String.eqb direction "up" then
    ret (set_state (RandomWalkEnemy 0 speed speed) self)
  else if String.eqb direction "down" then
    ret (set_state (RandomWalkEnemy 0 (- speed) speed) self)
  else if String.eqb direction "left" then
    ret (set_state (RandomWalkEnemy (- speed) 0 speed) self)
  else
    ret (set_state (RandomWalkEnemy speed 0 speed) self).

(** [enemy.update()]: the method of the enemy's own class. *)
Definition Enemy_update (self : Enemy) : M Enemy :=
  match enemy_state self with
  | DemoEnemy => DemoEnemy_update self
  | RandomWalkEnemy dx dy speed => RandomWalkEnemy_update dx dy speed self
  | ChasingEnemy speed => ChasingEnemy_update speed self
  | FencingEnemy speed dir => FencingEnemy_update speed dir self
  | TeleportingEnemy cooldown counter =>
      TeleportingEnemy_update cooldown counter self
  end.

(** [n] calls of [update] on one enemy, one after the other. *)
Fixpoint Enemy_updates (n : nat) (self : Enemy) : M Enemy :=
  match n with
  | O => ret self
  | S n' => self <- Enemy_update self;; Enemy_updates n' self
  end.

(** [n] calls of [Player.update], one after the other. *)
Fixpoint Player_updates (n : nat) : M unit :=
  match n with
  | O => ret tt
  | S n' => Player_update;; Player_updates n'
  end.

(** The Euclidean distance of two points. *)
Definition dist (x y x' y' : R) : R :=
  sqrt ((x' - x) * (x' - x) + (y' - y) * (y' - y)).

(** The session after [check_hit] on [self]. *)
Definition after_check (g : Game) (self : Enemy) : Game :=
  if hits_player g self then with_banner YouLose g else g.

(** The name of an enemy's class. *)
Definition class_name (self : Enemy) : string :=
  match enemy_state self with
  | DemoEnemy => "DemoEnemy"
  | RandomWalkEnemy _ _ _ => "RandomWalkEnemy"
  | ChasingEnemy _ => "ChasingEnemy"
  | FencingEnemy _ _ => "FencingEnemy"
  | TeleportingEnemy _ _ => "TeleportingEnemy"
  end.

(** Where [FencingEnemy.update] leaves the enemy, before the collision
    check. *)
Definition fencing_move (hm : Home) (speed : R) (dir : direction)
  (self : Enemy) : Enemy :=
  let square_left := IZR (home_x hm) - 80 / 2 in
  let square_right := IZR (home_x hm) + 80 / 2 in
  let square_top := IZR (home_y hm) - 80 / 2 in
  let square_bottom := IZR (home_y hm) + 80 / 2 in
  match dir with
  | Right =>
      let self := set_x (enemy_x self + speed) self in
      if Py.ge (enemy_x self) square_right
      then set_state (FencingEnemy speed Down) (set_x square_right self)
      else self
  | Down =>
      let self := set_y (enemy_y self + speed) self in
      if Py.ge (enemy_y self) square_bottom
      then set_state (FencingEnemy speed Left) (set_y square_bottom self)
      else self
  | Left =>
      let self := set_x (enemy_x self - speed) self in
      if Py.le (enemy_x self) square_left
      then set_state (FencingEnemy speed Up) (set_x square_left self)
      else self
  | Up =>
      let self := set_y (enemy_y self - speed) self in
      if Py.le (enemy_y self) square_top
      then set_state (FencingEnemy speed Right) (set_y square_top self)
      else self
  end.

(** A fencing enemy of speed 4 inside the closed square of side 80 around
    Home. *)
Definition fenced (hm : Home) (self : Enemy) : Prop :=
  (exists d, enemy_state self = FencingEnemy 4 d)
  /\ IZR (home_x hm) - 40 <= enemy_x self <= IZR (home_x hm) + 40
  /\ IZR (home_y hm) - 40 <= enemy_y self <= IZR (home_y hm) + 40.

(** A fenced enemy on the edge of the square it is walking along: the top
    edge when heading right, the right edge heading down, the bottom edge
    heading left, the left edge heading up. *)
Definition on_track (hm : Home) (self : Enemy) : Prop :=
  IZR (home_x hm) - 40 <= enemy_x self <= IZR (home_x hm) + 40
  /\ IZR (home_y hm) - 40 <= enemy_y self <= IZR (home_y hm) + 40
  /\ match enemy_state self with
     | FencingEnemy speed Right => speed = 4 /\ enemy_y self = IZR (home_y hm) - 40
     | FencingEnemy speed Down => speed = 4 /\ enemy_x self = IZR (home_x hm) + 40
     | FencingEnemy speed Left => speed = 4 /\ enemy_y self = IZR (home_y hm) + 40
     | FencingEnemy speed Up => speed = 4 /\ enemy_x self = IZR (home_x hm) - 40
     | _ => False
     end.

(** The way left to the edge ahead. *)
Definition way_ahead (hm : Home) (dir : direction) (self : Enemy) : R :=
  match dir with
  | Right => IZR (home_x hm) + 40 - enemy_x self
  | Down => IZR (home_y hm) + 40 - enemy_y self
  | Left => enemy_x self - (IZR (home_x hm) - 40)
  | Up => enemy_y self - (IZR (home_y hm) - 40)
  end.

(** A random-walk enemy of speed 3 whose velocity is one of the four
    axis directions. *)
Definition axis_velocity (self : Enemy) : Prop :=
  exists dx dy,
    enemy_state self = RandomWalkEnemy dx dy 3
    /\ ((dx = 0 /\ (dy = 3 \/ dy = - 3)) \/ (dy = 0 /\ (dx = 3 \/ dx = - 3))).

(** Where the teleporting callback puts an enemy: at integer coordinates
    inside the [w] by [h] arena, or at the position it was created at when
    that has a coordinate equal to 100 (no draw is made then). *)
Definition arena_position (x0 y0 : R) (w h : Z) (e : Enemy) : Prop :=
  (x0 <> 100 /\ y0 <> 100
   /\ exists x y : Z, (0 <= x <= w)%Z /\ (0 <= y <= h)%Z
                      /\ enemy_x e = IZR x /\ enemy_y e = IZR y)
  \/ ((x0 = 100 \/ y0 = 100) /\ enemy_x e = x0 /\ enemy_y e = y0).

(** The pending timers that will call the fencing callback. *)
Definition pending_fencing (tm : list (Z * callback)) : nat :=
  List.length
    (filter (fun p => match snd p with
                      | cb_create_fencing_enemy => true
                      | _ => false
                      end) tm).




(** The player twelve units west of an active waypoint. *)
Definition strolling : Game :=
  session 800 500 (mkPlayer 100 250 5) (mkWaypoint true 112 250) far_home
          zero_draws.

(** * Properties *)

(** ** Python comparisons *)

Module PyFacts.

Lemma lt_true a b : Py.lt a b = true <-> a < b.
Proof. unfold Py.lt; destruct (Rlt_dec a b); split; intros; auto; try discriminate; lra. Qed.

Lemma lt_false a b : Py.lt a b = false <-> b <= a.
Proof. unfold Py.lt; destruct (Rlt_dec a b); split; intros; auto; try discriminate; lra. Qed.

Lemma le_true a b : Py.le a b = true <-> a <= b.
Proof. unfold Py.le; destruct (Rle_dec a b); split; intros; auto; try discriminate; lra. Qed.

Lemma le_false a b : Py.le a b = false <-> b < a.
Proof. unfold Py.le; destruct (Rle_dec a b); split; intros; auto; try discriminate; lra. Qed.

Lemma gt_true a b : Py.gt a b = true <-> b < a.
Proof. apply lt_true. Qed.

Lemma gt_false a b : Py.gt a b = false <-> a <= b.
Proof. apply lt_false. Qed.

Lemma ge_true a b : Py.ge a b = true <-> b <= a.
Proof. apply le_true. Qed.

Lemma ge_false a b : Py.ge a b = false <-> a < b.
Proof. apply le_false. Qed.

Lemma ne_true a b : Py.ne a b = true <-> a <> b.
Proof. unfold Py.ne; destruct (Req_dec_T a b); split; intros; auto; try discriminate; tauto. Qed.

Lemma ne_false a b : Py.ne a b = false <-> a = b.
Proof. unfold Py.ne; destruct (Req_dec_T a b); split; intros; auto; try discriminate; tauto. Qed.

End PyFacts.


(** ** Reasoning in the session monad *)

Lemma bind_Ret {A B} (m : M A) (k : A -> M B) g a g' :
  m g = Ret a g' -> bind m k g = k a g'.
Proof. intros H; unfold bind; now rewrite H. Qed.

Lemma bind_inv {A B} (m : M A) (k : A -> M B) g b g' :
  bind m k g = Ret b g' ->
  exists a g1, m g = Ret a g1 /\ k a g1 = Ret b g'.
Proof.
  unfold bind; destruct (m g) as [a g1| |]; intros H; try discriminate.
  now exists a, g1.
Qed.

Lemma randint_Ret lo hi g :
  (lo <= hi)%Z ->
  exists v, randint lo hi g = Ret v (with_cursor (S (cursor g)) g)
            /\ (lo <= v <= hi)%Z.
Proof.
  intros Hle; unfold randint.
  destruct (Z.ltb_spec hi lo) as [Hlt|_]; [lia|].
  eexists; split; [reflexivity|].
  pose proof (Z.mod_pos_bound (draws g (cursor g)) (hi - lo + 1)); lia.
Qed.

Lemma randint_inv lo hi g v g' :
  randint lo hi g = Ret v g' ->
  g' = with_cursor (S (cursor g)) g /\ (lo <= v <= hi)%Z.
Proof.
  unfold randint; destruct (Z.ltb_spec hi lo) as [Hlt|Hle]; [discriminate|].
  intros H; injection H as <- <-; split; [reflexivity|].
  pose proof (Z.mod_pos_bound (draws g (cursor g)) (hi - lo + 1)); lia.
Qed.

Lemma check_hit_Ret self g :
  exists g', check_hit self g = Ret tt g'
             /\ player g' = player g /\ home g' = home g
             /\ waypoint g' = waypoint g /\ enemies g' = enemies g.
Proof.
  unfold check_hit, bind, get, when.
  destruct (hits_player g self); eexists; (split; [reflexivity|]); simpl; auto.
Qed.

(** ** Collision *)

(** C3: [hits_player] holds exactly when the player's point is strictly
    inside the enemy's square on both axes; a player on the boundary point
    [(ex + s/2, ey)] is not hit, and one at [(ex + s/2 - eps, ey)] with
    [0 < eps < s] is. *)
Theorem hits_player_strict (g : Game) (self : Enemy) :
  let s := IZR (enemy_size self) in
  let ex := enemy_x self in
  let ey := enemy_y self in
  let px := player_x (player g) in
  let py := player_y (player g) in
  (hits_player g self = true <->
     (ex - s / 2 < px < ex + s / 2) /\ (ey - s / 2 < py < ey + s / 2))
  /\ (px = ex + s / 2 -> py = ey -> hits_player g self = false)
  /\ (forall eps, 0 < eps < s -> px = ex + s / 2 - eps -> py = ey ->
        hits_player g self = true).
Proof.
  intros s ex ey px py.
  assert (Hiff : hits_player g self = true <->
     (ex - s / 2 < px < ex + s / 2) /\ (ey - s / 2 < py < ey + s / 2)).
  { unfold hits_player; fold s ex ey px py.
    rewrite !andb_true_iff, !PyFacts.lt_true; tauto. }
  split; [exact Hiff|split].
  - intros Hx Hy. apply not_true_is_false. rewrite Hiff. lra.
  - intros eps Heps Hx Hy. apply Hiff. lra.
Qed.

Lemma hits_player_strict_witness : hits_player duel red_enemy = true.
Proof.
  apply (proj2 (proj2 (hits_player_strict duel red_enemy)) (1 / 2));
    simpl; lra.
Defined.

(** ** Teleporting enemy *)

Lemma teleport_Ret self g :
  exists self' g',
    TeleportingEnemy_teleport self g = Ret self' g'
    /\ player g' = player g /\ home g' = home g
    /\ enemy_state self' = enemy_state self
    /\ enemy_size self' = enemy_size self
    /\ exists ox oy, (-200 <= ox <= 200)%Z /\ (-200 <= oy <= 200)%Z
       /\ ((enemy_x self' = player_x (player g) + IZR ox
            /\ enemy_y self' = player_y (player g) + IZR oy)
           \/ (enemy_x self' = IZR (home_x (home g)) + IZR ox
               /\ enemy_y self' = IZR (home_y (home g)) + IZR oy)).
Proof.
  unfold TeleportingEnemy_teleport, choice2, bind, get.
  set (g1 := with_cursor (S (cursor g)) g).
  destruct (randint_Ret (-200) 200 g1 ltac:(lia)) as (ox & Hox & Box).
  set (g2 := with_cursor (S (cursor g1)) g1) in *.
  destruct (randint_Ret (-200) 200 g2 ltac:(lia)) as (oy & Hoy & Boy).
  destruct (draws g (cursor g) mod 2 =? 0)%Z;
    [ change (String.eqb "player" "player") with true
    | change (String.eqb "home" "player") with false ];
    cbv beta iota; rewrite Hox, Hoy; unfold ret;
    do 2 eexists; (split; [reflexivity|]); simpl;
    repeat (split; [reflexivity|]); exists ox, oy; tauto.
Qed.



(** ** Fencing enemy *)

(** One direction of the patrol: split on the edge test [c], name the
    enemy the update returns, and give the direction after a turn ([turned])
    or without one ([kept]). *)
Ltac fencing_done g d :=
  match goal with
  | |- context [check_hit ?e] =>
      let g' := fresh "g'" in
      let Hhit := fresh "Hhit" in
      destruct (check_hit_Ret e g) as (g' & Hhit & _); exists e, g', d;
      (split; [unfold bind; rewrite Hhit; reflexivity|])
  end;
  simpl; repeat split; try assumption; try reflexivity; try lra.

Ltac fencing_step g c turned kept :=
  let E := fresh "E" in
  destruct c eqn:E;
  [ first [apply PyFacts.ge_true in E | apply PyFacts.le_true in E];
    fencing_done g turned; right; repeat split; lra
  | first [apply PyFacts.ge_false in E | apply PyFacts.le_false in E];
    fencing_done g kept; left; repeat split; lra ].

(** C5: a fencing enemy inside the closed square of side 80 around Home is
    still inside it after an update.  The update moves 4 along the current
    direction and keeps the direction while the move stays short of the edge
    ahead; otherwise it stops on that edge and the direction becomes the next
    one in the order right, down, left, up, right. *)
Theorem FencingEnemy_update_in_square (dir : direction) (self : Enemy)
  (g : Game) :
  let hx := IZR (home_x (home g)) in
  let hy := IZR (home_y (home g)) in
  enemy_state self = FencingEnemy 4 dir ->
  hx - 40 <= enemy_x self <= hx + 40 ->
  hy - 40 <= enemy_y self <= hy + 40 ->
  exists self' g' dir',
    FencingEnemy_update 4 dir self g = Ret self' g'
    /\ hx - 40 <= enemy_x self' <= hx + 40
    /\ hy - 40 <= enemy_y self' <= hy + 40
    /\ enemy_state self' = FencingEnemy 4 dir'
    /\ match dir with
       | Right =>
           enemy_y self' = enemy_y self
           /\ ((enemy_x self + 4 < hx + 40
                /\ enemy_x self' = enemy_x self + 4 /\ dir' = Right)
               \/ (hx + 40 <= enemy_x self + 4
                   /\ enemy_x self' = hx + 40 /\ dir' = Down))
       | Down =>
           enemy_x self' = enemy_x self
           /\ ((enemy_y self + 4 < hy + 40
                /\ enemy_y self' = enemy_y self + 4 /\ dir' = Down)
               \/ (hy + 40 <= enemy_y self + 4
                   /\ enemy_y self' = hy + 40 /\ dir' = Left))
       | Left =>
           enemy_y self' = enemy_y self
           /\ ((hx - 40 < enemy_x self - 4
                /\ enemy_x self' = enemy_x self - 4 /\ dir' = Left)
               \/ (enemy_x self - 4 <= hx - 40
                   /\ enemy_x self' = hx - 40 /\ dir' = Up))
       | Up =>
           enemy_x self' = enemy_x self
           /\ ((hy - 40 < enemy_y self - 4
                /\ enemy_y self' = enemy_y self - 4 /\ dir' = Up)
               \/ (enemy_y self - 4 <= hy - 40
                   /\ enemy_y self' = hy - 40 /\ dir' = Right))
       end.
Proof.
  intros hx hy Hst Hx Hy.
  unfold FencingEnemy_update, bind at 1, get.
  destruct dir; cbv zeta; simpl enemy_x; simpl enemy_y; fold hx hy.
  - fencing_step g (Py.ge (enemy_x self + 4) (hx + 80 / 2)) Down Right.
  - fencing_step g (Py.ge (enemy_y self + 4) (hy + 80 / 2)) Left Down.
  - fencing_step g (Py.le (enemy_x self - 4) (hx - 80 / 2)) Up Left.
  - fencing_step g (Py.le (enemy_y self - 4) (hy - 80 / 2)) Right Up.
Qed.

Lemma FencingEnemy_update_in_square_witness :
  exists self' g',
    FencingEnemy_update 4 Right blue_enemy duel = Ret self' g'
    /\ enemy_x self' = 740
    /\ enemy_state self' = FencingEnemy 4 Down.
Proof.
  destruct (FencingEnemy_update_in_square Right blue_enemy duel)
    as (e & g' & d & Hr & _ & _ & Hs & _ & Hcase);
    [reflexivity | simpl; lra | simpl; lra |].
  exists e, g'. split; [exact Hr|].
  simpl in Hcase. destruct Hcase as [(H & _) | (_ & Hx & Hd)]; [lra|].
  subst d. split; [lra | exact Hs].
Defined.

(** ** Chasing enemy *)

Lemma sum_squares_pos (a b : R) : a <> 0 \/ b <> 0 -> 0 < a * a + b * b.
Proof. intros [H|H]; nra. Qed.

Lemma sqrt_sum_squares_scaled (a b d k : R) :
  0 < d -> d * d = a * a + b * b -> 0 <= k ->
  sqrt ((a / d * k) * (a / d * k) + (b / d * k) * (b / d * k)) = k.
Proof.
  intros Hd Hsq Hk.
  replace ((a / d * k) * (a / d * k) + (b / d * k) * (b / d * k))
    with (k * k * (a * a + b * b) / (d * d)) by (field; lra).
  rewrite <- Hsq.
  replace (k * k * (d * d) / (d * d)) with (k * k) by (field; lra).
  now apply sqrt_square.
Qed.

(** C8: the update of a chasing enemy always returns (no division by zero
    is raised).  An enemy standing exactly on the player keeps its position;
    any other enemy moves by 4 times the unit vector towards the player, a
    displacement of Euclidean length 4. *)
Theorem ChasingEnemy_update_step (self : Enemy) (g : Game) :
  let px := player_x (player g) in
  let py := player_y (player g) in
  let dx := px - enemy_x self in
  let dy := py - enemy_y self in
  let d := sqrt (dx * dx + dy * dy) in
  exists self' g',
    ChasingEnemy_update 4 self g = Ret self' g'
    /\ (enemy_x self = px -> enemy_y self = py ->
          enemy_x self' = enemy_x self /\ enemy_y self' = enemy_y self)
    /\ (enemy_x self <> px \/ enemy_y self <> py ->
          0 < d
          /\ enemy_x self' = enemy_x self + dx / d * 4
          /\ enemy_y self' = enemy_y self + dy / d * 4
          /\ sqrt ((enemy_x self' - enemy_x self) * (enemy_x self' - enemy_x self)
                   + (enemy_y self' - enemy_y self) * (enemy_y self' - enemy_y self))
             = 4).
Proof.
  intros px py dx dy d.
  unfold ChasingEnemy_update, bind at 1, get; cbv zeta; fold px py dx dy d.
  destruct (Py.gt d 0) eqn:E;
    [apply PyFacts.gt_true in E | apply PyFacts.gt_false in E].
  - unfold truediv. destruct (Req_dec_T d 0) as [H0|_]; [lra|].
    unfold bind at 2 3, ret at 1 2.
    set (e := set_y _ _).
    destruct (check_hit_Ret e g) as (g' & Hhit & _).
    exists e, g'. split; [unfold bind, ret; rewrite Hhit; reflexivity|].
    split.
    + intros Hx Hy. exfalso.
      assert (dx = 0) by (unfold dx; lra). assert (dy = 0) by (unfold dy; lra).
      unfold d in E. replace (dx * dx + dy * dy) with 0 in E by nra.
      rewrite sqrt_0 in E; lra.
    + intros _. subst e; simpl.
      repeat split; try assumption.
      replace (enemy_x self + dx / d * 4 - enemy_x self) with (dx / d * 4) by ring.
      replace (enemy_y self + dy / d * 4 - enemy_y self) with (dy / d * 4) by ring.
      apply sqrt_sum_squares_scaled; [assumption| |lra].
      unfold d; apply sqrt_sqrt; nra.
  - unfold bind at 1, ret at 1.
    destruct (check_hit_Ret self g) as (g' & Hhit & _).
    exists self, g'. split; [unfold bind, ret; rewrite Hhit; reflexivity|].
    split; [tauto|].
    intros Hne. exfalso.
    assert (0 < dx * dx + dy * dy).
    { apply sum_squares_pos. unfold dx, dy. destruct Hne; [left|right]; lra. }
    pose proof (sqrt_lt_R0 _ H). fold d in H0. lra.
Qed.

Lemma ChasingEnemy_update_step_witness :
  exists self' g',
    ChasingEnemy_update 4 purple_enemy duel = Ret self' g'
    /\ sqrt ((enemy_x self' - enemy_x purple_enemy)
               * (enemy_x self' - enemy_x purple_enemy)
             + (enemy_y self' - enemy_y purple_enemy)
               * (enemy_y self' - enemy_y purple_enemy)) = 4.
Proof.
  destruct (ChasingEnemy_update_step purple_enemy duel)
    as (e & g' & Hr & _ & Hmove).
  destruct Hmove as (_ & _ & _ & Hlen); [right; simpl; lra|].
  exists e, g'; split; assumption.
Defined.

(** ** Player *)

Lemma turtle_distance_level (x y tx : R) :
  turtle_distance x y tx y = Rabs (tx - x).
Proof.
  unfold turtle_distance.
  replace ((tx - x) * (tx - x) + (y - y) * (y - y)) with (Rsqr (tx - x))
    by (unfold Rsqr; ring).
  apply sqrt_Rsqr_abs.
Qed.

Lemma turtle_towards_east (x y tx : R) :
  x < tx -> turtle_towards x y tx y = (1, 0).
Proof.
  intros H; unfold turtle_towards.
  rewrite turtle_distance_level, Rabs_pos_eq by lra.
  destruct (Req_dec_T (tx - x) 0); [lra|].
  f_equal; field; lra.
Qed.

(** The session one [Player.update] ends in. *)
Lemma Player_update_Ret (g : Game) :
  let p := player g in
  let w := waypoint g in
  let g1 := if Home_contains (home g) (player_x p) (player_y p)
            then with_banner YouWin g else g in
  let t := turtle_forward
             (turtle_towards (player_x p) (player_y p) (wp_x w) (wp_y w))
             (player_speed p) p in
  Player_update g =
  Ret tt
    (if wp_active w then
       if Py.lt (turtle_distance (player_x t) (player_y t) (wp_x w) (wp_y w))
                (player_speed t)
       then with_waypoint (mkWaypoint false (wp_x w) (wp_y w))
                          (with_player t g1)
       else with_player t g1
     else g1).
Proof.
  intros p w g1 t; subst p w g1 t.
  unfold Player_update, bind, get, when, game_over_win, ret, put,
    Waypoint_deactivate.
  destruct (Home_contains _ _ _); simpl;
    destruct (wp_active (waypoint g)); simpl; try reflexivity;
    destruct (Py.lt _ _); reflexivity.
Qed.

(** C4: from (0,0) with speed 5, outside Home, once the waypoint is
    activated at (3,0) one update puts the player at (5,0), past the
    waypoint, and deactivates the waypoint: the distance test comes after
    the move. *)
Theorem Player_update_overshoot (g : Game) :
  player_x (player g) = 0 ->
  player_y (player g) = 0 ->
  player_speed (player g) = 5 ->
  Home_contains (home g) 0 0 = false ->
  exists g',
    (Waypoint_activate 3 0;; Player_update) g = Ret tt g'
    /\ player_x (player g') = 5 /\ player_y (player g') = 0
    /\ wp_active (waypoint g') = false
    /\ wp_x (waypoint g') = 3 /\ wp_y (waypoint g') = 0
    /\ banners g' = banners g /\ running g' = running g.
Proof.
  intros Hx Hy Hs Hhome.
  unfold bind at 1, Waypoint_activate.
  set (g1 := with_waypoint (mkWaypoint true 3 0) g).
  assert (Ht : turtle_forward (turtle_towards 0 0 3 0) 5 (player g1)
               = mkPlayer 5 0 5).
  { rewrite turtle_towards_east by lra.
    unfold turtle_forward; simpl; rewrite Hx, Hy, Hs; f_equal; ring. }
  assert (Hd : Py.lt (turtle_distance 5 0 3 0) 5 = true).
  { apply PyFacts.lt_true. rewrite turtle_distance_level.
    replace (3 - 5) with (- (2)) by ring.
    rewrite Rabs_Ropp, Rabs_pos_eq; lra. }
  pose proof (Player_update_Ret g1) as HR; cbv zeta in HR.
  change (home g1) with (home g) in HR.
  change (waypoint g1) with (mkWaypoint true 3 0) in HR.
  change (wp_active (mkWaypoint true 3 0)) with true in HR.
  change (wp_x (mkWaypoint true 3 0)) with 3 in HR.
  change (wp_y (mkWaypoint true 3 0)) with 0 in HR.
  change (player_x (player g1)) with (player_x (player g)) in HR.
  change (player_y (player g1)) with (player_y (player g)) in HR.
  change (player_speed (player g1)) with (player_speed (player g)) in HR.
  rewrite Hx, Hy, Hs, Hhome, Ht in HR.
  change (player_x (mkPlayer 5 0 5)) with 5 in HR.
  change (player_y (mkPlayer 5 0 5)) with 0 in HR.
  change (player_speed (mkPlayer 5 0 5)) with 5 in HR.
  rewrite Hd in HR.
  eexists; split; [exact HR|]; simpl; auto 10.
Qed.

Lemma Player_update_overshoot_witness :
  exists g',
    (Waypoint_activate 3 0;; Player_update) at_origin = Ret tt g'
    /\ player_x (player g') = 5 /\ player_y (player g') = 0
    /\ wp_active (waypoint g') = false
    /\ wp_x (waypoint g') = 3 /\ wp_y (waypoint g') = 0
    /\ banners g' = banners at_origin
    /\ running g' = running at_origin.
Proof.
  apply (Player_update_overshoot at_origin); try reflexivity.
  unfold Home_contains; simpl.
  replace (Py.le (700 - 20 / 2) 0) with false
    by (symmetry; apply PyFacts.le_false; lra).
  reflexivity.
Defined.





(** ** Spawning *)

Lemma evolve_id g : g = evolve g [] [] (clock g) (timers g) (cursor g).
Proof. destruct g; unfold evolve; simpl; now rewrite !app_nil_r. Qed.

Lemma evolve_evolve g en el clk tm c en' el' clk' tm' c' :
  evolve (evolve g en el clk tm c) en' el' clk' tm' c'
  = evolve g (en ++ en') (el ++ el') clk' tm' c'.
Proof. unfold evolve; simpl; now rewrite !app_assoc. Qed.

Lemma with_cursor_evolve g c :
  with_cursor c g = evolve g [] [] (clock g) (timers g) c.
Proof. unfold with_cursor, evolve; now rewrite !app_nil_r. Qed.

Lemma with_timers_evolve g clk tm :
  with_timers clk tm g = evolve g [] [] clk tm (cursor g).
Proof. unfold with_timers, evolve; now rewrite !app_nil_r. Qed.

Lemma add_element_evolve e g :
  add_element e g = Ret tt (evolve g [] [e] (clock g) (timers g) (cursor g)).
Proof.
  unfold add_element, with_elements, evolve; now rewrite !app_nil_r.
Qed.

Lemma add_enemy_evolve e g :
  add_enemy e g
  = Ret tt (evolve g [e] [ElemEnemy e] (clock g) (timers g) (cursor g)).
Proof. reflexivity. Qed.

Lemma after_evolve ms cb g :
  after ms cb g
  = Ret tt (evolve g [] [] (clock g)
                   (insert_timer (clock g + ms) cb (timers g)) (cursor g)).
Proof. unfold after; now rewrite with_timers_evolve. Qed.

Lemma randint_evolve lo hi g v g' :
  randint lo hi g = Ret v g' ->
  g' = evolve g [] [] (clock g) (timers g) (S (cursor g))
  /\ (lo <= v <= hi)%Z.
Proof.
  intros H; apply randint_inv in H as [-> Hv]; split; [|exact Hv].
  apply with_cursor_evolve.
Qed.

(** Where a random-walk enemy is put: a point of the fixed 700 by 400 box
    whatever the size of the arena, or the position it was created at when
    that has a coordinate equal to 100. *)
Lemma create_random_enemy_effect (x0 y0 : R) (g g' : Game) :
  create_random_enemy x0 y0 g = Ret tt g' ->
  exists e c,
    g' = evolve g [] [ElemEnemy e] (clock g)
                (insert_timer (clock g + 1000) cb_create_random_enemy (timers g))
                c
    /\ enemy_state e = RandomWalkEnemy 0 0 3
    /\ enemy_size e = 20%Z
    /\ ((x0 <> 100 /\ y0 <> 100
         /\ exists x y, (0 <= x <= 700)%Z /\ (0 <= y <= 400)%Z
                        /\ enemy_x e = IZR x /\ enemy_y e = IZR y)
        \/ ((x0 = 100 \/ y0 = 100) /\ enemy_x e = x0 /\ enemy_y e = y0)).
Proof.
  unfold create_random_enemy; intros H.
  apply bind_inv in H as (e & g1 & He & H).
  apply bind_inv in H as ([] & g2 & Hadd & H).
  rewrite add_element_evolve in Hadd; injection Hadd as <-.
  rewrite after_evolve in H; injection H as <-.
  rewrite evolve_evolve; simpl.
  exists e.
  destruct (Py.ne _ 100 && Py.ne _ 100) eqn:Hguard.
  - apply andb_true_iff in Hguard as [Hx Hy].
    apply PyFacts.ne_true in Hx, Hy; simpl in Hx, Hy.
    apply bind_inv in He as (x & g3 & Hrx & He).
    apply bind_inv in He as (y & g4 & Hry & He).
    injection He as <- <-.
    apply randint_evolve in Hrx as [-> Bx], Hry as [-> By].
    rewrite !evolve_evolve; simpl.
    eexists; split; [reflexivity|]. simpl.
    split; [reflexivity|split; [reflexivity|]].
    left; split; [exact Hx|split; [exact Hy|]]. now exists x, y.
  - injection He as <- <-.
    exists (cursor g). split; [reflexivity|]. simpl.
    split; [reflexivity|split; [reflexivity|]].
    right. apply andb_false_iff in Hguard.
    rewrite !PyFacts.ne_false in Hguard. simpl in Hguard. tauto.
Qed.

Lemma for_range_effect (P : Home -> Enemy -> Prop) (body : M unit) :
  (forall g g', body g = Ret tt g' ->
     exists e c, P (home g) e
       /\ g' = evolve g [e] [ElemEnemy e] (clock g) (timers g) c) ->
  forall n g g', for_range n body g = Ret tt g' ->
    exists l c, List.length l = n /\ Forall (P (home g)) l
      /\ g' = evolve g l (map ElemEnemy l) (clock g) (timers g) c.
Proof.
  intros Hbody; induction n as [|n IH]; intros g g' H; simpl in H.
  - injection H as <-. exists [], (cursor g).
    split; [reflexivity|split; [constructor|apply evolve_id]].
  - apply bind_inv in H as ([] & g1 & Hb & H).
    apply Hbody in Hb as (e & c1 & HP & ->).
    apply IH in H as (l & c & Hlen & Hall & ->).
    exists (e :: l), c. simpl in *.
    split; [now rewrite Hlen|split; [now constructor|]].
    now rewrite evolve_evolve.
Qed.

Lemma create_chasing_enemy_effect (x0 y0 : R) (g g' : Game) :
  create_chasing_enemy x0 y0 g = Ret tt g' ->
  exists e c,
    g' = evolve g [e] [ElemEnemy e] (clock g)
                (insert_timer (clock g + 1000) cb_create_chasing_enemy (timers g))
                c
    /\ enemy_state e = ChasingEnemy 4
    /\ enemy_size e = 20%Z.
Proof.
  unfold create_chasing_enemy; intros H.
  apply bind_inv in H as (g0 & g1 & Hget & H); injection Hget as <- <-.
  apply bind_inv in H as (x & g2 & Hrx & H).
  apply bind_inv in H as (y & g3 & Hry & H).
  apply bind_inv in H as ([] & g4 & Hadd & H).
  apply randint_evolve in Hrx as [-> _], Hry as [-> _].
  rewrite add_enemy_evolve in Hadd; injection Hadd as <-.
  rewrite after_evolve in H; injection H as <-.
  rewrite !evolve_evolve; simpl.
  do 2 eexists; split; [reflexivity|]; simpl; auto.
Qed.

Lemma create_teleporting_enemy_effect (x0 y0 : R) (g g' : Game) :
  create_teleporting_enemy x0 y0 g = Ret tt g' ->
  exists l c,
    g' = evolve g l (map ElemEnemy l) (clock g)
                (insert_timer (clock g + 500) cb_create_teleporting_enemy
                              (timers g))
                c
    /\ List.length l = 5%nat
    /\ Forall (fun e => enemy_state e = TeleportingEnemy 60 0
                        /\ enemy_size e = 20%Z) l.
Proof.
  unfold create_teleporting_enemy; intros H.
  apply bind_inv in H as ([] & g1 & Hfor & H).
  apply (for_range_effect
           (fun _ e => enemy_state e = TeleportingEnemy 60 0
                       /\ enemy_size e = 20%Z)) in Hfor
    as (l & c & Hlen & Hall & ->).
  - rewrite after_evolve in H; injection H as <-.
    rewrite evolve_evolve, !app_nil_r; simpl.
    exists l, c; auto.
  - clear; intros g g' H.
    apply bind_inv in H as (g0 & g1 & Hget & H); injection Hget as <- <-.
    apply bind_inv in H as (e & g2 & He & H).
    rewrite add_enemy_evolve in H; injection H as <-.
    exists e.
    destruct (Py.ne _ 100 && Py.ne _ 100).
    + apply bind_inv in He as (x & g3 & Hrx & He).
      apply bind_inv in He as (y & g4 & Hry & He).
      injection He as <- <-.
      apply randint_evolve in Hrx as [-> _], Hry as [-> _].
      rewrite !evolve_evolve; simpl.
      eexists; split; [|reflexivity]; simpl; auto.
    + injection He as <- <-. exists (cursor g); simpl; auto.
Qed.

Lemma fencing_roll_effect (e e' : Enemy) (g g' : Game) :
  fencing_roll 25 e g = Ret e' g' ->
  exists c,
    g' = evolve g [] [] (clock g) (timers g) c
    /\ enemy_state e' = enemy_state e /\ enemy_size e' = enemy_size e
    /\ exists x y : Z,
         (home_x (home g) - 25 <= x <= home_x (home g) + 25)%Z
         /\ (home_y (home g) - 25 <= y <= home_y (home g) + 25)%Z
         /\ enemy_x e' = IZR x /\ enemy_y e' = IZR y.
Proof.
  unfold fencing_roll; intros H.
  apply bind_inv in H as (g0 & g1 & Hget & H); injection Hget as <- <-.
  apply bind_inv in H as (x & g2 & Hrx & H).
  apply bind_inv in H as (y & g3 & Hry & H).
  injection H as <- <-.
  apply randint_evolve in Hrx as [-> Bx], Hry as [-> By].
  rewrite evolve_evolve; simpl.
  eexists; split; [reflexivity|]. simpl.
  split; [reflexivity|split; [reflexivity|]]. now exists x, y.
Qed.

Lemma fencing_reroll_effect (fuel : nat) (e e' : Enemy) (g g' : Game) :
  fencing_reroll fuel 25 e g = Ret e' g' ->
  exists c,
    g' = evolve g [] [] (clock g) (timers g) c
    /\ Home_contains (home g) (enemy_x e') (enemy_y e') = false
    /\ enemy_state e' = enemy_state e /\ enemy_size e' = enemy_size e
    /\ (e' = e
        \/ exists x y : Z,
             (home_x (home g) - 25 <= x <= home_x (home g) + 25)%Z
             /\ (home_y (home g) - 25 <= y <= home_y (home g) + 25)%Z
             /\ enemy_x e' = IZR x /\ enemy_y e' = IZR y).
Proof.
  revert e g; induction fuel as [|fuel IH]; intros e g H; simpl in H;
    destruct (Home_contains (home g) (enemy_x e) (enemy_y e)) eqn:Hc;
    try discriminate.
  - injection H as <- <-. exists (cursor g).
    split; [apply evolve_id|]. auto.
  - apply bind_inv in H as (e1 & g1 & Hroll & H).
    apply fencing_roll_effect in Hroll as (c1 & -> & Hst & Hsz & Hpos).
    apply IH in H as (c & -> & Hout & Hst' & Hsz' & Hfinal).
    exists c. rewrite evolve_evolve; simpl in *.
    split; [reflexivity|split; [exact Hout|]].
    split; [congruence|split; [congruence|]].
    right. destruct Hfinal as [->|Hfinal]; assumption.
  - injection H as <- <-. exists (cursor g).
    split; [apply evolve_id|]. auto.
Qed.

Lemma fencing_placement_effect (x0 y0 : R) (fuel : nat) (e : Enemy)
  (g g' : Game) :
  fencing_placement x0 y0 fuel g = Ret e g' ->
  exists c,
    g' = evolve g [] [] (clock g) (timers g) c
    /\ Home_contains (home g) (enemy_x e) (enemy_y e) = false
    /\ enemy_state e = FencingEnemy 4 Right
    /\ enemy_size e = 20%Z
    /\ fencing_position x0 y0 (home g) e.
Proof.
  unfold fencing_placement; intros H.
  apply bind_inv in H as (g0 & g1 & Hget & H); injection Hget as <- <-.
  apply bind_inv in H as (e1 & g1 & Hfirst & H).
  destruct (Py.ne _ _ && Py.ne _ _) eqn:Hguard.
  - apply fencing_roll_effect in Hfirst as (c1 & -> & Hst & Hsz & Hpos).
    apply fencing_reroll_effect in H as (c & -> & Hout & Hst' & Hsz' & Hfinal).
    exists c. rewrite evolve_evolve; simpl in *.
    split; [reflexivity|split; [exact Hout|]].
    split; [congruence|split; [congruence|]].
    left. destruct Hfinal as [->|Hfinal]; assumption.
  - injection Hfirst as <- <-.
    apply fencing_reroll_effect in H as (c & -> & Hout & Hst' & Hsz' & Hfinal).
    exists c. simpl in *.
    split; [reflexivity|split; [exact Hout|]].
    split; [congruence|split; [congruence|]].
    destruct Hfinal as [->|Hfinal]; [right|left; exact Hfinal].
    apply andb_false_iff in Hguard. rewrite !PyFacts.ne_false in Hguard.
    simpl in *. tauto.
Qed.

Lemma create_fencing_enemy_effect (x0 y0 : R) (fuel : nat) (g g' : Game) :
  create_fencing_enemy x0 y0 fuel g = Ret tt g' ->
  exists l c,
    g' = evolve g l (map ElemEnemy l) (clock g) (timers g) c
    /\ List.length l = 15%nat
    /\ Forall (fun e =>
                 Home_contains (home g) (enemy_x e) (enemy_y e) = false
                 /\ enemy_state e = FencingEnemy 4 Right
                 /\ enemy_size e = 20%Z
                 /\ fencing_position x0 y0 (home g) e) l.
Proof.
  unfold create_fencing_enemy; intros H.
  apply (for_range_effect
           (fun hm e =>
              Home_contains hm (enemy_x e) (enemy_y e) = false
              /\ enemy_state e = FencingEnemy 4 Right
              /\ enemy_size e = 20%Z
              /\ fencing_position x0 y0 hm e)) in H
    as (l & c & Hlen & Hall & ->).
  - exists l, c; auto.
  - clear; intros g g' H.
    apply bind_inv in H as (e & g1 & Hplace & H).
    apply fencing_placement_effect in Hplace as (c & -> & Hprops).
    rewrite add_enemy_evolve in H; injection H as <-.
    exists e, c. rewrite evolve_evolve; simpl. split; [exact Hprops|reflexivity].
Qed.


(** ** Running the scheduler *)

Lemma ready_evolve g en el clk tm c : ready g -> ready (evolve g en el clk tm c).
Proof. exact (fun H => H). Qed.

Lemma ready_with_timers g clk tm : ready g -> ready (with_timers clk tm g).
Proof. exact (fun H => H). Qed.

Lemma count_app p l l' : count p (l ++ l') = (count p l + count p l')%nat.
Proof. unfold count; now rewrite filter_app, length_app. Qed.

Lemma count_all p l :
  Forall (fun e => p e = true) l -> count p l = List.length l.
Proof.
  unfold count; induction 1 as [|e l He _ IH]; simpl; [reflexivity|].
  rewrite He; simpl; now rewrite IH.
Qed.

Lemma count_none p l :
  Forall (fun e => p e = false) l -> count p l = 0%nat.
Proof.
  unfold count; induction 1 as [|e l He _ IH]; simpl; [reflexivity|].
  now rewrite He.
Qed.

Lemma no_random_walk_elements p l :
  Forall (fun e => p e = false) l ->
  List.length (filter (element_is p) (map ElemEnemy l)) = 0%nat.
Proof.
  induction 1 as [|e l He _ IH]; simpl; [reflexivity|]. now rewrite He.
Qed.

Lemma census_evolve g en el clk tm c :
  census (evolve g en el clk tm c)
  = census_add (census g)
      (count is_random_walk en, count is_chasing en, count is_fencing en,
       count is_teleporting en,
       List.length (filter (element_is is_random_walk) el)).
Proof.
  unfold census, census_add; simpl.
  now rewrite !count_app, filter_app, length_app.
Qed.

(** Settle [p e = b] for every enemy of a batch with one known state. *)
Ltac same_kind Hst :=
  eapply Forall_impl; [|exact Hst];
  let e := fresh "e" in
  let He := fresh "He" in
  intros e He;
  unfold is_random_walk, is_chasing, is_fencing, is_teleporting;
  rewrite He; reflexivity.

Lemma fire_effect (x0 y0 : R) (fuel : nat) (cb : callback) (g g' : Game) :
  fire x0 y0 fuel cb g = Ret tt g' ->
  exists en el c,
    g' = evolve g en el (clock g) (reschedule cb (clock g) (timers g)) c
    /\ census g' = census_add (census g) (census_of cb).
Proof.
  destruct cb; simpl; intros H.
  - apply create_random_enemy_effect in H as (e & c & -> & Hst & _).
    exists [], [ElemEnemy e], c. split; [reflexivity|].
    rewrite census_evolve; simpl.
    unfold is_random_walk; rewrite Hst; reflexivity.
  - apply create_chasing_enemy_effect in H as (e & c & -> & Hst & _).
    exists [e], [ElemEnemy e], c. split; [reflexivity|].
    rewrite census_evolve; unfold count; simpl.
    unfold is_random_walk, is_chasing, is_fencing, is_teleporting;
      rewrite Hst; reflexivity.
  - apply create_fencing_enemy_effect in H as (l & c & -> & Hlen & Hall).
    exists l, (map ElemEnemy l), c. split; [reflexivity|].
    assert (Hst : Forall (fun e => enemy_state e = FencingEnemy 4 Right) l)
      by (eapply Forall_impl; [|exact Hall]; simpl; tauto).
    rewrite census_evolve.
    rewrite (count_none is_random_walk), (count_none is_chasing),
      (count_all is_fencing), (count_none is_teleporting),
      no_random_walk_elements, Hlen by same_kind Hst.
    reflexivity.
  - apply create_teleporting_enemy_effect in H as (l & c & -> & Hlen & Hall).
    exists l, (map ElemEnemy l), c. split; [reflexivity|].
    assert (Hst : Forall (fun e => enemy_state e = TeleportingEnemy 60 0) l)
      by (eapply Forall_impl; [|exact Hall]; simpl; tauto).
    rewrite census_evolve.
    rewrite (count_none is_random_walk), (count_none is_chasing),
      (count_none is_fencing), (count_all is_teleporting),
      no_random_walk_elements, Hlen by same_kind Hst.
    reflexivity.
Qed.

Lemma randint_eq lo hi g :
  (lo <= hi)%Z ->
  randint lo hi g
  = Ret (lo + draws g (cursor g) mod (hi - lo + 1))%Z
        (with_cursor (S (cursor g)) g).
Proof.
  intros H; unfold randint. destruct (Z.ltb_spec hi lo); [lia|reflexivity].
Qed.

Lemma for_range_total (I : Game -> Prop) (body : M unit) :
  (forall g, I g -> exists g', body g = Ret tt g' /\ I g') ->
  forall n g, I g -> exists g', for_range n body g = Ret tt g' /\ I g'.
Proof.
  intros Hbody; induction n as [|n IH]; intros g Hg; simpl.
  - now exists g.
  - destruct (Hbody g Hg) as (g1 & Hb & Hg1).
    destruct (IH g1 Hg1) as (g' & Hfor & Hg').
    exists g'. split; [|exact Hg']. now rewrite (bind_Ret _ _ _ _ _ Hb).
Qed.

Lemma create_random_enemy_total (x0 y0 : R) (g : Game) :
  exists g', create_random_enemy x0 y0 g = Ret tt g'.
Proof.
  unfold create_random_enemy.
  destruct (Py.ne _ 100 && Py.ne _ 100).
  - unfold bind at 1 2.
    rewrite (randint_eq 0 700) by lia. unfold bind at 1.
    rewrite (randint_eq 0 400) by lia. eexists; reflexivity.
  - eexists; reflexivity.
Qed.

Lemma create_chasing_enemy_total (x0 y0 : R) (g : Game) :
  ready g -> exists g', create_chasing_enemy x0 y0 g = Ret tt g'.
Proof.
  intros (Hw & Hh & _). unfold create_chasing_enemy, bind at 1, get.
  unfold bind at 1. rewrite (randint_eq 0 (screen_width g)) by exact Hw.
  unfold bind at 1. rewrite (randint_eq 0 (screen_height g)) by exact Hh.
  eexists; reflexivity.
Qed.

Lemma create_teleporting_enemy_total (x0 y0 : R) (g : Game) :
  ready g -> exists g', create_teleporting_enemy x0 y0 g = Ret tt g'.
Proof.
  intros Hg. unfold create_teleporting_enemy.
  match goal with |- context [for_range 5 ?b] =>
    destruct (for_range_total ready b) with (n := 5%nat) (g := g)
      as (g1 & Hfor & _); [|exact Hg|]
  end.
  - clear; intros g (Hw & Hh & Hclear). unfold bind at 1, get.
    destruct (Py.ne _ 100 && Py.ne _ 100).
    + unfold bind at 1 2.
      rewrite (randint_eq 0 (screen_width g)) by exact Hw. unfold bind at 1.
      rewrite (randint_eq 0 (screen_height g)) by exact Hh.
      eexists; split; [reflexivity|]. repeat split; assumption.
    + eexists; split; [reflexivity|]. repeat split; assumption.
  - rewrite (bind_Ret _ _ _ _ _ Hfor). eexists; reflexivity.
Qed.

Lemma fencing_reroll_outside (fuel : nat) (e : Enemy) (g : Game) :
  Home_contains (home g) (enemy_x e) (enemy_y e) = false ->
  fencing_reroll fuel 25 e g = Ret e g.
Proof. intros H; destruct fuel; simpl; now rewrite H. Qed.

Lemma fencing_roll_total (e : Enemy) (g : Game) :
  ready g ->
  exists e' g',
    fencing_roll 25 e g = Ret e' g' /\ ready g'
    /\ Home_contains (home g') (enemy_x e') (enemy_y e') = false.
Proof.
  intros (Hw & Hh & Hclear). unfold fencing_roll, bind at 1, get.
  unfold bind at 1. rewrite randint_eq by lia.
  unfold bind at 1. rewrite randint_eq by lia.
  do 2 eexists; split; [reflexivity|]. simpl.
  split; [repeat split; assumption|apply Hclear].
Qed.

Lemma fencing_placement_total (x0 y0 : R) (fuel : nat) (g : Game) :
  ready g ->
  exists e g', fencing_placement x0 y0 (S fuel) g = Ret e g' /\ ready g'.
Proof.
  intros Hg. unfold fencing_placement, bind at 1, get.
  destruct (Py.ne _ _ && Py.ne _ _).
  - destruct (fencing_roll_total (FencingEnemy_init x0 y0 20 "blue") g Hg)
      as (e1 & g1 & Hroll & Hg1 & Hout).
    rewrite (bind_Ret _ _ _ _ _ Hroll), fencing_reroll_outside by exact Hout.
    now exists e1, g1.
  - unfold bind, ret.
    set (e0 := FencingEnemy_init x0 y0 20 "blue").
    cbn [fencing_reroll].
    destruct (Home_contains (home g) (enemy_x e0) (enemy_y e0)).
    + destruct (fencing_roll_total e0 g Hg) as (e1 & g1 & Hroll & Hg1 & Hout).
      fold (bind (fencing_roll 25 e0) (fencing_reroll fuel 25) g).
      rewrite (bind_Ret _ _ _ _ _ Hroll), fencing_reroll_outside by exact Hout.
      now exists e1, g1.
    + now exists e0, g.
Qed.

Lemma fire_total (x0 y0 : R) (fuel : nat) (cb : callback) (g : Game) :
  ready g -> exists g', fire x0 y0 (S fuel) cb g = Ret tt g'.
Proof.
  intros Hg; destruct cb; simpl.
  - apply create_random_enemy_total.
  - now apply create_chasing_enemy_total.
  - unfold create_fencing_enemy.
    match goal with |- context [for_range 15 ?b] =>
      destruct (for_range_total ready b) with (n := 15%nat) (g := g)
        as (g1 & Hfor & _); [|exact Hg|now exists g1]
    end.
    clear; intros g Hg.
    destruct (fencing_placement_total x0 y0 fuel g Hg) as (e & g1 & Hp & Hg1).
    rewrite (bind_Ret _ _ _ _ _ Hp). eexists; split; [reflexivity|exact Hg1].
  - now apply create_teleporting_enemy_total.
Qed.

Lemma init_game_Ret (x0 y0 : R) (w h lvl : Z) (dr : nat -> Z) :
  exists g0,
    init_game x0 y0 w h lvl dr = Ret tt g0
    /\ screen_width g0 = w /\ screen_height g0 = h /\ draws g0 = dr
    /\ home g0 = mkHome (w - 100) (h / 2) 20
    /\ player g0 = mkPlayer 50 (IZR (h / 2)) 5
    /\ enemies g0 = []
    /\ elements g0 = [ElemWaypoint; ElemHome; ElemPlayer]
    /\ clock g0 = 0%Z
    /\ timers g0 = [(1000, cb_create_random_enemy);
                    (2000, cb_create_chasing_enemy);
                    (3000, cb_create_fencing_enemy);
                    (4000, cb_create_teleporting_enemy)]%Z.
Proof. eexists; split; [reflexivity|]; simpl; auto 10. Qed.

Lemma run_timers_step (x0 y0 : R) (steps fuel : nat) (t_end : Z) (g : Game)
  (t : Z) (cb : callback) (rest : list (Z * callback)) :
  ready g -> timers g = (t, cb) :: rest -> (t <= t_end)%Z ->
  exists g1,
    run_timers x0 y0 (S steps) (S fuel) t_end g
    = run_timers x0 y0 steps (S fuel) t_end g1
    /\ ready g1 /\ clock g1 = t /\ timers g1 = reschedule cb t rest
    /\ census g1 = census_add (census g) (census_of cb).
Proof.
  intros Hg Htm Ht.
  destruct (fire_total x0 y0 fuel cb (with_timers t rest g)) as (g1 & Hfire);
    [now apply ready_with_timers|].
  exists g1. split.
  - cbn [run_timers]. rewrite Htm.
    destruct (Z.leb_spec t t_end); [|lia].
    unfold bind at 1, put. now rewrite (bind_Ret _ _ _ _ _ Hfire).
  - apply fire_effect in Hfire as (en & el & c & -> & Hcensus).
    split; [exact Hg|]. simpl. auto.
Qed.

Lemma run_timers_stop (x0 y0 : R) (steps fuel : nat) (t_end : Z) (g : Game)
  (t : Z) (cb : callback) (rest : list (Z * callback)) :
  timers g = (t, cb) :: rest -> (t_end < t)%Z ->
  run_timers x0 y0 steps fuel t_end g
  = Ret tt (with_timers t_end (timers g) g).
Proof.
  intros Htm Ht. destruct steps; cbn [run_timers]; rewrite Htm;
    destruct (Z.leb_spec t t_end); try lia; reflexivity.
Qed.

(** In any run of the timers the number of random-walk enemies in
    [enemies] stays what it was. *)
Lemma run_timers_random_walk (x0 y0 : R) (steps fuel : nat) (t_end : Z)
  (g g' : Game) :
  run_timers x0 y0 steps fuel t_end g = Ret tt g' ->
  count is_random_walk (enemies g') = count is_random_walk (enemies g).
Proof.
  revert g; induction steps as [|steps IH]; intros g H; cbn [run_timers] in H;
    destruct (timers g) as [|[t cb] rest]; try (injection H as <-; reflexivity);
    destruct (t <=? t_end)%Z; try discriminate;
    try (injection H as <-; reflexivity).
  apply bind_inv in H as ([] & g1 & Hput & H). injection Hput as <-.
  apply bind_inv in H as ([] & g2 & Hfire & H).
  apply IH in H. rewrite H.
  apply fire_effect in Hfire as (en & el & c & _ & Hcensus).
  unfold census in Hcensus; simpl in Hcensus.
  destruct cb; simpl in Hcensus; injection Hcensus as -> _ _ _ _; lia.
Qed.

(** The first 4000 ms of a session whose callbacks can return: ten timers
    fire, and they leave no random-walk enemy, three chasing, fifteen
    fencing and five teleporting enemies in [enemies], while four
    random-walk enemies were registered as elements. *)
Lemma scheduler_run (x0 y0 : R) (w h lvl : Z) (dr : nat -> Z) (fuel : nat)
  (g0 : Game) :
  init_game x0 y0 w h lvl dr = Ret tt g0 ->
  ready g0 ->
  exists g',
    run_timers x0 y0 10 (S fuel) 4000 g0 = Ret tt g'
    /\ clock g' = 4000%Z
    /\ census g' = (0, 3, 15, 5, 4)%nat.
Proof.
  intros Hinit Hg0.
  destruct (init_game_Ret x0 y0 w h lvl dr)
    as (g & Hinit' & _ & _ & _ & _ & _ & Hen & Hel & Hclk & Htm).
  rewrite Hinit in Hinit'; injection Hinit' as <-.
  assert (Hc0 : census g0 = (0, 0, 0, 0, 0)%nat)
    by (unfold census; rewrite Hen, Hel; reflexivity).
  clear Hinit Hen Hel Hclk.
  repeat match goal with
  | Hg : ready ?g, Htm : timers ?g = _ :: _, Hc : census ?g = _
    |- exists g', run_timers _ _ (S ?n) _ _ ?g = _ /\ _ =>
      let g1 := fresh "g" in
      let Hrun := fresh "Hrun" in
      let Hg1 := fresh "Hg" in
      let Htm1 := fresh "Htm" in
      let Hc1 := fresh "Hc" in
      destruct (run_timers_step x0 y0 n fuel 4000 g _ _ _ Hg Htm ltac:(lia))
        as (g1 & Hrun & Hg1 & _ & Htm1 & Hc1);
      rewrite Hrun; rewrite Hc in Hc1; simpl in Htm1, Hc1;
      clear Hrun Hg Htm Hc
  end.
  eexists; split; [eapply run_timers_stop; [eassumption|lia]|].
  split; [reflexivity|]. assumption.
Qed.

Lemma ready_zero_draws (w h : Z) (g : Game) :
  (0 <= w)%Z -> (0 <= h)%Z ->
  screen_width g = w -> screen_height g = h ->
  home g = mkHome (w - 100) (h / 2) 20 -> draws g = zero_draws ->
  ready g.
Proof.
  intros Hw Hh Hsw Hsh Hhome Hdr. unfold ready.
  rewrite Hsw, Hsh, Hhome, Hdr. split; [exact Hw|split; [exact Hh|]].
  intros n m. unfold zero_draws, Home_contains; simpl.
  rewrite !Zmod_0_l, !Z.add_0_r, !minus_IZR.
  replace (Py.le (IZR w - 100 - 20 / 2) (IZR w - 100 - 25)) with false
    by (symmetry; apply PyFacts.le_false; lra).
  reflexivity.
Qed.

Lemma ready_duel : ready duel.
Proof. now apply (ready_zero_draws 800 500). Qed.








(** ** Enemy construction *)

(** C9 (as the code has it): construction stores the size it is given, with
    no rejection and no clamping, so the stored size is positive exactly when
    the argument is; the enemies the generator's callbacks construct and
    register all have size 20. *)
Theorem Enemy_init_stores_size (x0 y0 : R) :
  (forall size color st,
     enemy_size (Enemy_init x0 y0 size color st) = size
     /\ ((0 < enemy_size (Enemy_init x0 y0 size color st))%Z <-> (0 < size)%Z))
  /\ (forall fuel cb g g',
        fire x0 y0 fuel cb g = Ret tt g' ->
        exists en el,
          enemies g' = enemies g ++ en
          /\ elements g' = elements g ++ map ElemEnemy el
          /\ Forall (fun e => enemy_size e = 20%Z) en
          /\ Forall (fun e => enemy_size e = 20%Z) el).
Proof.
  split; [intros; simpl; tauto|].
  intros fuel cb g g' H; destruct cb; simpl in H.
  - apply create_random_enemy_effect in H as (e & c & -> & _ & Hsz & _).
    exists [], [e]; simpl. rewrite app_nil_r. auto.
  - apply create_chasing_enemy_effect in H as (e & c & -> & _ & Hsz).
    exists [e], [e]; simpl. auto.
  - apply create_fencing_enemy_effect in H as (l & c & -> & _ & Hall).
    assert (Forall (fun e => enemy_size e = 20%Z) l)
      by (eapply Forall_impl; [|exact Hall]; simpl; tauto).
    exists l, l; simpl. auto.
  - apply create_teleporting_enemy_effect in H as (l & c & -> & _ & Hall).
    assert (Forall (fun e => enemy_size e = 20%Z) l)
      by (eapply Forall_impl; [|exact Hall]; simpl; tauto).
    exists l, l; simpl. auto.
Qed.

Lemma Enemy_init_stores_size_witness :
  exists g' en el,
    fire 0 0 1 cb_create_chasing_enemy duel = Ret tt g'
    /\ enemies g' = enemies duel ++ en
    /\ elements g' = elements duel ++ map ElemEnemy el
    /\ Forall (fun e => enemy_size e = 20%Z) en
    /\ Forall (fun e => enemy_size e = 20%Z) el.
Proof.
  destruct (fire_total 0 0 0 cb_create_chasing_enemy duel ready_duel)
    as (g' & H).
  destruct (proj2 (Enemy_init_stores_size 0 0) 1%nat _ duel g' H)
    as (en & el & Hprops).
  exists g', en, el. split; [exact H|exact Hprops].
Defined.

Lemma Enemy_init_nonpositive_size :
  enemy_size (DemoEnemy_init 0 0 (-5) "red") = (-5)%Z
  /\ ~ (0 < enemy_size (DemoEnemy_init 0 0 (-5) "red"))%Z.
Proof. simpl; split; [reflexivity|lia]. Qed.

(** C7 (the code at a 500 by 300 arena): the random-walk enemy is placed by
    draws from the fixed ranges [0, 700] and [0, 400], not from the arena's
    size; with a draw of 600 it is registered at x = 600, to the right of
    the arena's width of 500. *)
Theorem random_walk_enemy_outside_arena :
  exists e g',
    create_random_enemy 0 0 small_arena = Ret tt g'
    /\ elements g' = [ElemEnemy e]
    /\ is_random_walk e = true
    /\ enemy_x e = 600 /\ enemy_y e = 199
    /\ IZR (screen_width small_arena) < enemy_x e.
Proof.
  unfold create_random_enemy.
  replace (Py.ne (enemy_x (RandomWalkEnemy_init 0 0 20 "red")) 100) with true
    by (symmetry; apply PyFacts.ne_true; simpl; lra).
  replace (Py.ne (enemy_y (RandomWalkEnemy_init 0 0 20 "red")) 100) with true
    by (symmetry; apply PyFacts.ne_true; simpl; lra).
  cbv [andb]. unfold bind at 1 2.
  rewrite (randint_eq 0 700) by lia. unfold bind at 1.
  rewrite (randint_eq 0 400) by lia.
  do 2 eexists; split; [reflexivity|]. simpl.
  repeat split; try reflexivity.
  change (600 mod 701)%Z with 600%Z. simpl. lra.
Qed.

(** C1 (the code on an 800 by 500 session): after the timers of the first
    4000 ms have fired, [enemies] holds three chasing, fifteen fencing and
    five teleporting enemies and no random-walk enemy, although four
    random-walk enemies were spawned and registered as elements. *)
Theorem random_walk_enemy_missing_from_enemies :
  exists g0 g',
    init_game 0 0 800 500 1 zero_draws = Ret tt g0
    /\ run_timers 0 0 10 1 4000 g0 = Ret tt g'
    /\ clock g' = 4000%Z
    /\ count is_random_walk (enemies g') = 0%nat
    /\ count is_chasing (enemies g') = 3%nat
    /\ count is_fencing (enemies g') = 15%nat
    /\ count is_teleporting (enemies g') = 5%nat
    /\ List.length (filter (element_is is_random_walk) (elements g')) = 4%nat.
Proof.
  destruct (init_game_Ret 0 0 800 500 1 zero_draws)
    as (g0 & Hinit & Hw & Hh & Hdr & Hhome & _).
  assert (Hg0 : ready g0)
    by (apply (ready_zero_draws 800 500); first [assumption | lia]).
  destruct (scheduler_run 0 0 800 500 1 zero_draws 0 g0 Hinit Hg0)
    as (g' & Hrun & Hclk & Hcensus).
  exists g0, g'. unfold census in Hcensus.
  injection Hcensus as H1 H2 H3 H4 H5. auto 10.
Qed.

(** * Further properties of the entity code *)

(** ** What every [update] of an enemy does to the session *)

Lemma check_hit_eq (self : Enemy) (g : Game) :
  check_hit self g = Ret tt (after_check g self).
Proof.
  unfold check_hit, after_check, bind, get, when, game_over_lose, ret.
  destruct (hits_player g self); reflexivity.
Qed.

Lemma hits_player_player (g g' : Game) (self : Enemy) :
  player g' = player g -> hits_player g' self = hits_player g self.
Proof. unfold hits_player; now intros ->. Qed.

Lemma after_check_frame (g : Game) (self : Enemy) :
  player (after_check g self) = player g
  /\ home (after_check g self) = home g
  /\ waypoint (after_check g self) = waypoint g
  /\ enemies (after_check g self) = enemies g
  /\ elements (after_check g self) = elements g
  /\ timers (after_check g self) = timers g
  /\ banners (after_check g self)
     = banners g ++ (if hits_player g self then [YouLose] else [])
  /\ running (after_check g self)
     = (if hits_player g self then false else running g).
Proof.
  unfold after_check; destruct (hits_player g self); simpl;
    rewrite ?app_nil_r; auto 10.
Qed.

Lemma DemoEnemy_update_eq (self : Enemy) (g : Game) :
  let moved := set_y (enemy_y self + 1) (set_x (enemy_x self + 1) self) in
  DemoEnemy_update self g = Ret moved (after_check g moved).
Proof.
  intros moved; unfold DemoEnemy_update; fold moved.
  unfold bind; now rewrite check_hit_eq.
Qed.

Lemma RandomWalkEnemy_update_eq (dx dy speed : R) (self : Enemy) (g : Game) :
  let x := enemy_x self + dx in
  let y := enemy_y self + dy in
  let half := IZR (enemy_size self) / 2 in
  let dx' := if Py.ge (x + half) (IZR (screen_width g)) then dx * -1
             else if Py.le (x - half) 0 then dx * -1 else dx in
  let dy' := if Py.ge (y + half) (IZR (screen_height g)) then dy * -1
             else if Py.le (y - half) 0 then dy * -1 else dy in
  let moved := mkEnemy x y (enemy_size self) (enemy_color self)
                       (RandomWalkEnemy dx' dy' speed) in
  RandomWalkEnemy_update dx dy speed self g = Ret moved (after_check g moved).
Proof.
  intros x y half dx' dy' moved.
  unfold RandomWalkEnemy_update, bind at 1, get.
  unfold bind; rewrite check_hit_eq; reflexivity.
Qed.

Lemma ChasingEnemy_update_eq (speed : R) (self : Enemy) (g : Game) :
  exists x y,
    let moved := mkEnemy x y (enemy_size self) (enemy_color self)
                         (enemy_state self) in
    ChasingEnemy_update speed self g = Ret moved (after_check g moved).
Proof.
  unfold ChasingEnemy_update, bind at 1, get; cbv zeta.
  destruct (Py.gt _ 0) eqn:E.
  - apply PyFacts.gt_true in E. unfold truediv.
    destruct (Req_dec_T _ 0) as [H0|_]; [lra|].
    unfold bind at 2 3, ret at 1 2. unfold bind, ret at 1.
    rewrite check_hit_eq. do 2 eexists; reflexivity.
  - unfold bind, ret at 1. rewrite check_hit_eq.
    exists (enemy_x self), (enemy_y self). destruct self; reflexivity.
Qed.

Lemma FencingEnemy_update_eq (speed : R) (dir : direction) (self : Enemy)
  (g : Game) :
  exists x y st,
    let moved := mkEnemy x y (enemy_size self) (enemy_color self) st in
    FencingEnemy_update speed dir self g = Ret moved (after_check g moved)
    /\ (st = enemy_state self \/ exists d, st = FencingEnemy speed d).
Proof.
  unfold FencingEnemy_update, bind at 1, get; cbv zeta.
  destruct dir;
    match goal with |- context [if ?c then _ else _] => destruct c end;
    unfold bind, ret; rewrite check_hit_eq;
    do 3 eexists; (split; [reflexivity|]); simpl; eauto.
Qed.

Lemma TeleportingEnemy_update_eq (cooldown counter : Z) (self : Enemy)
  (g : Game) :
  exists x y c n,
    let moved := mkEnemy x y (enemy_size self) (enemy_color self)
                         (TeleportingEnemy cooldown c) in
    TeleportingEnemy_update cooldown counter self g
    = Ret moved (after_check (with_cursor n g) moved).
Proof.
  unfold TeleportingEnemy_update; cbv zeta.
  destruct (cooldown <=? counter + 1)%Z.
  - unfold TeleportingEnemy_teleport, choice2, bind, get.
    destruct (String.eqb _ "player");
      rewrite (randint_eq (-200) 200) by lia;
      rewrite (randint_eq (-200) 200) by lia;
      unfold ret; rewrite check_hit_eq; do 4 eexists; reflexivity.
  - unfold bind, ret. rewrite check_hit_eq.
    exists (enemy_x self), (enemy_y self), (counter + 1)%Z, (cursor g).
    replace (with_cursor (cursor g) g) with g by (now destruct g).
    reflexivity.
Qed.

(** X1: whatever its class, an enemy's [update] returns (it never raises);
    it keeps the enemy's size, colour and class, leaves the player, Home, the
    waypoint and the enemy and element lists alone, and calls
    [game_over_lose] (the "You Lose" banner) exactly when the enemy, where
    the update left it, hits the player. *)
Theorem Enemy_update_frame (self : Enemy) (g : Game) :
  exists self' g',
    Enemy_update self g = Ret self' g'
    /\ enemy_size self' = enemy_size self
    /\ enemy_color self' = enemy_color self
    /\ class_name self' = class_name self
    /\ player g' = player g /\ home g' = home g /\ waypoint g' = waypoint g
    /\ enemies g' = enemies g /\ elements g' = elements g
    /\ banners g'
       = banners g ++ (if hits_player g self' then [YouLose] else []).
Proof.
  unfold Enemy_update, class_name.
  destruct (enemy_state self) as [|dx dy speed|speed|speed dir|cd ctr] eqn:Hst.
  - pose proof (DemoEnemy_update_eq self g) as H; cbv zeta in H.
    do 2 eexists; split; [exact H|].
    destruct (after_check_frame g
                (set_y (enemy_y self + 1) (set_x (enemy_x self + 1) self)))
      as (? & ? & ? & ? & ? & ? & ? & ?).
    simpl; rewrite Hst; auto 12.
  - pose proof (RandomWalkEnemy_update_eq dx dy speed self g) as H;
      cbv zeta in H.
    do 2 eexists; split; [exact H|].
    match goal with |- context [after_check g ?e] =>
      destruct (after_check_frame g e) as (? & ? & ? & ? & ? & ? & ? & ?) end.
    simpl; auto 12.
  - destruct (ChasingEnemy_update_eq speed self g) as (x & y & H);
      cbv zeta in H.
    do 2 eexists; split; [exact H|].
    match goal with |- context [after_check g ?e] =>
      destruct (after_check_frame g e) as (? & ? & ? & ? & ? & ? & ? & ?) end.
    simpl; rewrite Hst; auto 12.
  - destruct (FencingEnemy_update_eq speed dir self g)
      as (x & y & st & H & Hst'); cbv zeta in H.
    do 2 eexists; split; [exact H|].
    match goal with |- context [after_check g ?e] =>
      destruct (after_check_frame g e) as (? & ? & ? & ? & ? & ? & ? & ?) end.
    simpl. destruct Hst' as [->|[d ->]]; rewrite ?Hst; auto 12.
  - destruct (TeleportingEnemy_update_eq cd ctr self g)
      as (x & y & c & n & H); cbv zeta in H.
    do 2 eexists; split; [exact H|].
    match goal with |- context [after_check ?g1 ?e] =>
      destruct (after_check_frame g1 e) as (? & ? & ? & ? & ? & ? & ? & ?);
      rewrite (hits_player_player g g1 e) in * by reflexivity
    end.
    simpl; auto 12.
Qed.

(** ** Geometry of a step towards a target *)

Lemma sum_squares_nonneg (a b : R) : 0 <= a * a + b * b.
Proof.
  pose proof (Rle_0_sqr a); pose proof (Rle_0_sqr b); unfold Rsqr in *; lra.
Qed.

Lemma dist_nonneg (x y x' y' : R) : 0 <= dist x y x' y'.
Proof. apply sqrt_pos. Qed.

Lemma dist_zero_iff (x y x' y' : R) :
  dist x y x' y' = 0 <-> x' = x /\ y' = y.
Proof.
  unfold dist; split.
  - intros H. apply sqrt_eq_0 in H; [|apply sum_squares_nonneg].
    apply Rplus_sqr_eq_0 in H as [Hx Hy]. split; lra.
  - intros [-> ->]. replace ((x - x) * (x - x) + (y - y) * (y - y)) with 0
      by ring. apply sqrt_0.
Qed.

Lemma dist_square (x y x' y' : R) :
  dist x y x' y' * dist x y x' y'
  = (x' - x) * (x' - x) + (y' - y) * (y' - y).
Proof. unfold dist; apply sqrt_sqrt, sum_squares_nonneg. Qed.

(** Each coordinate differs by no more than the distance. *)
Lemma dist_bounds_coordinates (x y x' y' : R) :
  Rabs (x' - x) <= dist x y x' y' /\ Rabs (y' - y) <= dist x y x' y'.
Proof.
  pose proof (dist_nonneg x y x' y') as Hd.
  pose proof (dist_square x y x' y') as Hsq.
  pose proof (Rle_0_sqr (x' - x)) as Hx. pose proof (Rle_0_sqr (y' - y)) as Hy.
  split; (apply Rsqr_incr_0_var; [|exact Hd]);
    rewrite <- Rsqr_abs; unfold Rsqr in *; rewrite Hsq; lra.
Qed.

(** A step of length [s] from [(x, y)] straight towards [(tx, ty)], at
    distance [d > 0], ends at distance [|d - s|] from it. *)
Lemma dist_after_step (x y tx ty s : R) :
  let d := dist x y tx ty in
  0 < d ->
  dist (x + (tx - x) / d * s) (y + (ty - y) / d * s) tx ty = Rabs (d - s).
Proof.
  intros d Hd.
  pose proof (dist_square x y tx ty) as Hsq; fold d in Hsq.
  unfold dist at 1.
  replace ((tx - (x + (tx - x) / d * s)) * (tx - (x + (tx - x) / d * s))
           + (ty - (y + (ty - y) / d * s)) * (ty - (y + (ty - y) / d * s)))
    with (((tx - x) * (tx - x) + (ty - y) * (ty - y))
          * ((d - s) * (d - s)) / (d * d)) by (field; lra).
  rewrite <- Hsq.
  replace (d * d * ((d - s) * (d - s)) / (d * d)) with (Rsqr (d - s))
    by (unfold Rsqr; field; lra).
  apply sqrt_Rsqr_abs.
Qed.

(** ** Chasing enemy: closing in and catching *)

Lemma ChasingEnemy_update_moved (speed : R) (self : Enemy) (g : Game) :
  let px := player_x (player g) in
  let py := player_y (player g) in
  let d := dist (enemy_x self) (enemy_y self) px py in
  0 < d ->
  let moved := set_y (enemy_y self + (py - enemy_y self) / d * speed)
                 (set_x (enemy_x self + (px - enemy_x self) / d * speed) self) in
  ChasingEnemy_update speed self g = Ret moved (after_check g moved).
Proof.
  intros px py d Hd moved.
  unfold ChasingEnemy_update, bind at 1, get; cbv zeta.
  fold px py. change (sqrt _) with d.
  replace (Py.gt d 0) with true by (symmetry; apply PyFacts.gt_true; lra).
  unfold truediv. destruct (Req_dec_T d 0) as [H0|_]; [lra|].
  unfold bind at 2 3, ret at 1 2. unfold bind, ret.
  rewrite check_hit_eq. reflexivity.
Qed.

Lemma ChasingEnemy_update_still (speed : R) (self : Enemy) (g : Game) :
  dist (enemy_x self) (enemy_y self) (player_x (player g)) (player_y (player g))
  = 0 ->
  ChasingEnemy_update speed self g = Ret self (after_check g self).
Proof.
  intros Hd.
  unfold ChasingEnemy_update, bind at 1, get; cbv zeta.
  change (sqrt _) with
    (dist (enemy_x self) (enemy_y self) (player_x (player g))
          (player_y (player g))).
  rewrite Hd.
  replace (Py.gt 0 0) with false by (symmetry; apply PyFacts.gt_false; lra).
  unfold bind, ret. now rewrite check_hit_eq.
Qed.

(** X2: a chasing enemy at distance [d > 0] from the player is at distance
    [|d - 4|] after its update: 4 closer from 4 or further away, and past the
    player, [4 - d] beyond it, from nearer than 4. *)
Theorem ChasingEnemy_closes_in (self : Enemy) (g : Game) :
  let px := player_x (player g) in
  let py := player_y (player g) in
  let d := dist (enemy_x self) (enemy_y self) px py in
  0 < d ->
  exists self' g',
    ChasingEnemy_update 4 self g = Ret self' g'
    /\ dist (enemy_x self') (enemy_y self') px py = Rabs (d - 4)
    /\ (4 <= d -> dist (enemy_x self') (enemy_y self') px py = d - 4)
    /\ (d < 4 -> dist (enemy_x self') (enemy_y self') px py = 4 - d).
Proof.
  intros px py d Hd.
  pose proof (ChasingEnemy_update_moved 4 self g Hd) as H; cbv zeta in H.
  do 2 eexists; split; [exact H|].
  assert (Hdist : dist (enemy_x self + (px - enemy_x self) / d * 4)
                       (enemy_y self + (py - enemy_y self) / d * 4) px py
                  = Rabs (d - 4)) by (apply dist_after_step; exact Hd).
  simpl; fold px py d. rewrite Hdist.
  split; [reflexivity|split; intros Hcmp].
  - apply Rabs_pos_eq; lra.
  - rewrite Rabs_left1; lra.
Qed.

Lemma ChasingEnemy_closes_in_witness :
  exists self' g',
    ChasingEnemy_update 4 purple_enemy duel = Ret self' g'
    /\ dist (enemy_x self') (enemy_y self') (219 / 2) 100 = 4 - 3.
Proof.
  assert (Hd : dist (enemy_x purple_enemy) (enemy_y purple_enemy)
                    (player_x (player duel)) (player_y (player duel)) = 3).
  { unfold dist; simpl.
    replace ((219 / 2 - 219 / 2) * (219 / 2 - 219 / 2)
             + (100 - 97) * (100 - 97)) with (3 * 3) by field.
    apply sqrt_square; lra. }
  destruct (ChasingEnemy_closes_in purple_enemy duel)
    as (e & g' & Hr & _ & _ & Hnear); [rewrite Hd; lra|].
  exists e, g'. split; [exact Hr|].
  rewrite Hd in Hnear. apply Hnear; lra.
Defined.

Lemma hits_player_close (g : Game) (self : Enemy) :
  dist (enemy_x self) (enemy_y self) (player_x (player g)) (player_y (player g))
  < IZR (enemy_size self) / 2 ->
  hits_player g self = true.
Proof.
  intros Hd.
  destruct (dist_bounds_coordinates (enemy_x self) (enemy_y self)
              (player_x (player g)) (player_y (player g))) as [Hx Hy].
  unfold hits_player. rewrite !andb_true_iff, !PyFacts.lt_true.
  assert (Hax : Rabs (player_x (player g) - enemy_x self)
                < IZR (enemy_size self) / 2) by lra.
  assert (Hay : Rabs (player_y (player g) - enemy_y self)
                < IZR (enemy_size self) / 2) by lra.
  apply Rabs_def2 in Hax, Hay. lra.
Qed.

(** X3: a chasing enemy that its update brings nearer to the player than
    half its size ends the game as lost in that update.  This is the case
    when it starts at a distance [d > 0] with [|d - 4| < size / 2] (for the
    size 20 of the spawned enemies: from any distance below 14), and when it
    stands on the player and has a positive size. *)
Theorem ChasingEnemy_catches (self : Enemy) (g : Game) :
  let d := dist (enemy_x self) (enemy_y self)
                (player_x (player g)) (player_y (player g)) in
  (0 < d /\ Rabs (d - 4) < IZR (enemy_size self) / 2)
  \/ (d = 0 /\ (0 < enemy_size self)%Z) ->
  exists self' g',
    ChasingEnemy_update 4 self g = Ret self' g'
    /\ hits_player g self' = true
    /\ banners g' = banners g ++ [YouLose]
    /\ running g' = false.
Proof.
  intros d [[Hd Hnear]|[Hd Hsize]].
  - pose proof (ChasingEnemy_update_moved 4 self g Hd) as H; cbv zeta in H.
    do 2 eexists; split; [exact H|].
    match goal with |- hits_player g ?e = true /\ _ =>
      assert (Hhit : hits_player g e = true) end.
    { apply hits_player_close.
      cbn [enemy_x enemy_y enemy_size set_x set_y].
      rewrite (dist_after_step _ _ _ _ 4 Hd). exact Hnear. }
    unfold after_check; rewrite Hhit; simpl; auto.
  - pose proof (ChasingEnemy_update_still 4 self g Hd) as H.
    do 2 eexists; split; [exact H|].
    assert (Hhit : hits_player g self = true).
    { apply hits_player_close. fold d; rewrite Hd.
      apply IZR_lt in Hsize. lra. }
    unfold after_check; rewrite Hhit; simpl; auto.
Qed.

Lemma ChasingEnemy_catches_witness :
  exists self' g',
    ChasingEnemy_update 4 purple_enemy duel = Ret self' g'
    /\ hits_player duel self' = true
    /\ banners g' = banners duel ++ [YouLose]
    /\ running g' = false.
Proof.
  assert (Hd : dist (enemy_x purple_enemy) (enemy_y purple_enemy)
                    (player_x (player duel)) (player_y (player duel)) = 3).
  { unfold dist; simpl.
    replace ((219 / 2 - 219 / 2) * (219 / 2 - 219 / 2)
             + (100 - 97) * (100 - 97)) with (3 * 3) by field.
    apply sqrt_square; lra. }
  apply (ChasingEnemy_catches purple_enemy duel).
  left. rewrite Hd. split; [lra|].
  replace (3 - 4) with (- (1)) by ring. rewrite Rabs_Ropp, Rabs_pos_eq by lra.
  simpl; lra.
Defined.

(** ** Player: signals, approach and rest *)

(** X4: [Player.update] always returns; it draws the "You Win" banner and
    stops the loop exactly when Home contains the player's position before
    the move, never draws another banner, keeps the player's speed, Home, the
    enemies and the waypoint's position, never activates the waypoint, and
    with an inactive waypoint leaves the player where it is. *)
Theorem Player_update_signals (g : Game) :
  let at_home :=
    Home_contains (home g) (player_x (player g)) (player_y (player g)) in
  exists g',
    Player_update g = Ret tt g'
    /\ banners g' = banners g ++ (if at_home then [YouWin] else [])
    /\ running g' = (if at_home then false else running g)
    /\ home g' = home g /\ enemies g' = enemies g
    /\ player_speed (player g') = player_speed (player g)
    /\ wp_x (waypoint g') = wp_x (waypoint g)
    /\ wp_y (waypoint g') = wp_y (waypoint g)
    /\ (wp_active (waypoint g') = true -> wp_active (waypoint g) = true)
    /\ (wp_active (waypoint g) = false ->
          player g' = player g /\ waypoint g' = waypoint g).
Proof.
  intros at_home.
  pose proof (Player_update_Ret g) as HR; cbv zeta in HR. fold at_home in HR.
  eexists; split; [exact HR|].
  destruct at_home; destruct (wp_active (waypoint g)) eqn:Hw;
    try match goal with |- context [Py.lt ?a ?b] => destruct (Py.lt a b) end;
    simpl; rewrite ?app_nil_r; repeat split; auto; try discriminate;
    intros; try discriminate; congruence.
Qed.

Lemma turtle_towards_unit (x y tx ty : R) :
  0 < dist x y tx ty ->
  turtle_towards x y tx ty
  = ((tx - x) / dist x y tx ty, (ty - y) / dist x y tx ty).
Proof.
  intros Hd. unfold turtle_towards.
  change (turtle_distance x y tx ty) with (dist x y tx ty).
  destruct (Req_dec_T (dist x y tx ty) 0); [lra|reflexivity].
Qed.

Lemma turtle_towards_self (x y : R) : turtle_towards x y x y = (1, 0).
Proof.
  unfold turtle_towards.
  change (turtle_distance x y x y) with (dist x y x y).
  destruct (Req_dec_T (dist x y x y) 0) as [_|H]; [reflexivity|].
  exfalso; apply H, dist_zero_iff; auto.
Qed.

(** X5: with an active waypoint at distance [d] and a positive speed, one
    update leaves the player at distance [|d - speed|] from the waypoint when
    [d > 0]; a player standing exactly on the waypoint walks [speed] east,
    away from it.  The waypoint is deactivated when [0 < d < 2 * speed] and
    stays active when [d > 2 * speed]; at [d = 0] and [d = 2 * speed] the
    distance left equals the speed, and nothing is stated about the flag. *)
Theorem Player_update_approach (g : Game) :
  let p := player g in
  let w := waypoint g in
  let d := dist (player_x p) (player_y p) (wp_x w) (wp_y w) in
  wp_active w = true ->
  0 < player_speed p ->
  exists g',
    Player_update g = Ret tt g'
    /\ (0 < d ->
          dist (player_x (player g')) (player_y (player g')) (wp_x w) (wp_y w)
          = Rabs (d - player_speed p))
    /\ (d = 0 ->
          player_x (player g') = player_x p + player_speed p
          /\ player_y (player g') = player_y p
          /\ dist (player_x (player g')) (player_y (player g'))
                  (wp_x w) (wp_y w) = player_speed p)
    /\ (0 < d < 2 * player_speed p -> wp_active (waypoint g') = false)
    /\ (2 * player_speed p < d -> wp_active (waypoint g') = true).
Proof.
  intros p w d Hw Hs.
  pose proof (Player_update_Ret g) as HR; cbv zeta in HR.
  fold p w in HR. rewrite Hw in HR.
  change turtle_distance with dist in HR.
  set (g1 := if Home_contains (home g) (player_x p) (player_y p)
             then with_banner YouWin g else g) in HR.
  assert (Hg1 : waypoint g1 = w)
    by (subst g1; destruct (Home_contains _ _ _); reflexivity).
  pose proof (dist_nonneg (player_x p) (player_y p) (wp_x w) (wp_y w)) as Hd0.
  fold d in Hd0.
  destruct (Req_dec_T d 0) as [Hz|Hnz].
  - (* on the waypoint: heading east *)
    destruct (proj1 (dist_zero_iff _ _ _ _) Hz) as [Hwx Hwy].
    rewrite Hwx, Hwy, turtle_towards_self in HR.
    unfold turtle_forward in HR; simpl in HR.
    assert (Hd' : dist (player_x p + 1 * player_speed p)
                       (player_y p + 0 * player_speed p)
                       (player_x p) (player_y p) = player_speed p).
    { unfold dist.
      replace ((player_x p - (player_x p + 1 * player_speed p))
               * (player_x p - (player_x p + 1 * player_speed p))
               + (player_y p - (player_y p + 0 * player_speed p))
                 * (player_y p - (player_y p + 0 * player_speed p)))
        with (player_speed p * player_speed p) by ring.
      apply sqrt_square; lra. }
    rewrite Hd' in HR.
    replace (Py.lt (player_speed p) (player_speed p)) with false in HR
      by (symmetry; apply PyFacts.lt_false; lra).
    eexists; split; [exact HR|]. simpl. rewrite Hg1, Hwx, Hwy, Hd'.
    split; [intros; lra|]. split; [|split; intros; lra].
    intros _. repeat split; ring.
  - assert (Hd : 0 < d) by lra.
    assert (Hstep :
      dist (player_x p + (wp_x w - player_x p) / d * player_speed p)
           (player_y p + (wp_y w - player_y p) / d * player_speed p)
           (wp_x w) (wp_y w) = Rabs (d - player_speed p))
      by (apply dist_after_step; exact Hd).
    rewrite (turtle_towards_unit _ _ _ _ Hd) in HR. fold d in HR.
    unfold turtle_forward in HR; simpl in HR.
    rewrite Hstep in HR.
    destruct (Py.lt (Rabs (d - player_speed p)) (player_speed p)) eqn:E;
      [apply PyFacts.lt_true in E | apply PyFacts.lt_false in E];
      (eexists; split; [exact HR|]); simpl; rewrite ?Hg1, Hstep;
      (split; [reflexivity|]); (split; [intros; lra|]).
    + split; [reflexivity|]. intros H2.
      rewrite Rabs_pos_eq in E; lra.
    + rewrite Hw. split; [|reflexivity]. intros [_ H2].
      destruct (Rle_lt_dec (player_speed p) d) as [Hge|Hlt].
      * rewrite Rabs_pos_eq in E; lra.
      * rewrite Rabs_left in E; lra.
Qed.

Lemma Player_update_approach_witness :
  exists g',
    Player_update strolling = Ret tt g'
    /\ dist (player_x (player g')) (player_y (player g')) 112 250
       = Rabs (12 - 5)
    /\ wp_active (waypoint g') = true.
Proof.
  assert (Hd : dist 100 250 112 250 = 12).
  { unfold dist.
    replace ((112 - 100) * (112 - 100) + (250 - 250) * (250 - 250))
      with (12 * 12) by ring.
    apply sqrt_square; lra. }
  destruct (Player_update_approach strolling)
    as (g' & Hr & Hpos & _ & _ & Hfar); [reflexivity|simpl; lra|].
  exists g'. split; [exact Hr|].
  simpl in Hpos, Hfar. rewrite Hd in Hpos, Hfar.
  split; [apply Hpos; lra|apply Hfar; lra].
Defined.

Lemma Player_update_signals_witness :
  exists g',
    Player_update duel = Ret tt g'
    /\ player g' = player duel /\ waypoint g' = waypoint duel.
Proof.
  destruct (Player_update_signals duel)
    as (g' & Hr & _ & _ & _ & _ & _ & _ & _ & _ & Hrest).
  exists g'. split; [exact Hr|]. apply Hrest. reflexivity.
Defined.

Lemma Player_update_inactive (g : Game) :
  wp_active (waypoint g) = false ->
  Player_update g
  = Ret tt (if Home_contains (home g) (player_x (player g))
                             (player_y (player g))
            then with_banner YouWin g else g).
Proof.
  intros Hw. pose proof (Player_update_Ret g) as HR; cbv zeta in HR.
  now rewrite Hw in HR.
Qed.

(** X6: while the waypoint is inactive, any number of updates leaves the
    player and the waypoint where they are; each of them draws the
    "You Win" banner again when Home contains the player. *)
Theorem Player_updates_at_rest (n : nat) (g : Game) :
  wp_active (waypoint g) = false ->
  exists g',
    Player_updates n g = Ret tt g'
    /\ player g' = player g /\ waypoint g' = waypoint g
    /\ banners g'
       = banners g
         ++ (if Home_contains (home g) (player_x (player g))
                              (player_y (player g))
             then repeat YouWin n else []).
Proof.
  revert g; induction n as [|n IH]; intros g Hw; simpl.
  - exists g. split; [reflexivity|].
    destruct (Home_contains _ _ _); simpl; rewrite app_nil_r; auto.
  - unfold bind. rewrite (Player_update_inactive g Hw).
    set (g1 := if Home_contains _ _ _ then _ else g).
    assert (Hg1 : player g1 = player g /\ waypoint g1 = waypoint g
                  /\ home g1 = home g)
      by (subst g1; destruct (Home_contains _ _ _); simpl; auto).
    destruct Hg1 as (Hp & Hwp & Hh).
    destruct (IH g1) as (g' & Hr & Hp' & Hw' & Hb); [now rewrite Hwp|].
    exists g'. split; [exact Hr|].
    rewrite Hp', Hw', Hb, Hp, Hwp, Hh. split; [reflexivity|split; [reflexivity|]].
    subst g1. destruct (Home_contains _ _ _); simpl.
    + now rewrite <- app_assoc.
    + reflexivity.
Qed.

Lemma Player_updates_at_rest_witness :
  exists g',
    Player_updates 3 duel = Ret tt g'
    /\ player g' = player duel /\ waypoint g' = waypoint duel.
Proof.
  destruct (Player_updates_at_rest 3 duel) as (g' & Hr & Hp & Hw & _);
    [reflexivity|].
  exists g'; auto.
Defined.

(** ** Fencing enemy: the patrol *)

Lemma FencingEnemy_update_move (speed : R) (dir : direction) (self : Enemy)
  (g : Game) :
  FencingEnemy_update speed dir self g
  = Ret (fencing_move (home g) speed dir self)
        (after_check g (fencing_move (home g) speed dir self)).
Proof.
  unfold FencingEnemy_update, bind at 1, get; cbv zeta.
  unfold bind, ret; rewrite check_hit_eq. reflexivity.
Qed.

Lemma Enemy_update_fencing (dir : direction) (self : Enemy) (g : Game) :
  enemy_state self = FencingEnemy 4 dir ->
  Enemy_update self g
  = Ret (fencing_move (home g) 4 dir self)
        (after_check g (fencing_move (home g) 4 dir self)).
Proof.
  intros Hst. unfold Enemy_update. rewrite Hst.
  apply FencingEnemy_update_move.
Qed.

(** Split on the edge test of a [fencing_move]. *)
Ltac fencing_cases :=
  unfold fencing_move; cbv zeta; simpl enemy_x; simpl enemy_y;
  match goal with
  | |- context [Py.ge ?a ?b] =>
      let E := fresh "E" in
      destruct (Py.ge a b) eqn:E;
      [apply PyFacts.ge_true in E | apply PyFacts.ge_false in E]
  | |- context [Py.le ?a ?b] =>
      let E := fresh "E" in
      destruct (Py.le a b) eqn:E;
      [apply PyFacts.le_true in E | apply PyFacts.le_false in E]
  end; simpl.

Lemma fencing_move_fenced (hm : Home) (dir : direction) (self : Enemy) :
  enemy_state self = FencingEnemy 4 dir ->
  fenced hm self -> fenced hm (fencing_move hm 4 dir self).
Proof.
  intros Hst (_ & Hx & Hy). unfold fenced.
  destruct dir; fencing_cases; rewrite ?Hst;
    (split; [eexists; reflexivity|]); lra.
Qed.

Lemma fencing_move_on_track (hm : Home) (dir : direction) (self : Enemy) :
  enemy_state self = FencingEnemy 4 dir ->
  on_track hm self -> on_track hm (fencing_move hm 4 dir self).
Proof.
  intros Hst (Hx & Hy & Hedge). unfold on_track. rewrite Hst in Hedge.
  destruct dir; destruct Hedge as [_ Hedge]; fencing_cases; rewrite ?Hst;
    repeat split; lra.
Qed.

(** The move that reaches the edge ahead puts the enemy on the track; a
    shorter one takes 4 off the way ahead. *)
Lemma fencing_move_ahead (hm : Home) (dir : direction) (self : Enemy) :
  enemy_state self = FencingEnemy 4 dir ->
  fenced hm self ->
  (way_ahead hm dir self <= 4 -> on_track hm (fencing_move hm 4 dir self))
  /\ (4 < way_ahead hm dir self ->
        enemy_state (fencing_move hm 4 dir self) = FencingEnemy 4 dir
        /\ way_ahead hm dir (fencing_move hm 4 dir self)
           = way_ahead hm dir self - 4).
Proof.
  intros Hst (_ & Hx & Hy). unfold on_track, way_ahead.
  destruct dir; fencing_cases; rewrite ?Hst;
    (split;
     [ intros Hway; repeat split; lra
     | intros Hway; first [lra | split; [reflexivity|lra]] ]).
Qed.

Lemma Enemy_updates_invariant (hm : Home) (I : Enemy -> Prop) :
  (forall self g, home g = hm -> I self ->
     exists self', Enemy_update self g = Ret self' (after_check g self')
                   /\ I self') ->
  forall n self g, home g = hm -> I self ->
    exists self' g',
      Enemy_updates n self g = Ret self' g' /\ I self' /\ home g' = hm.
Proof.
  intros Hstep; induction n as [|n IH]; intros self g Hh HI; simpl.
  - now exists self, g.
  - destruct (Hstep self g Hh HI) as (e & He & HIe).
    unfold bind; rewrite He.
    apply IH; [|exact HIe].
    rewrite <- Hh. apply after_check_frame.
Qed.

Lemma on_track_step (self : Enemy) (g : Game) :
  on_track (home g) self ->
  exists self',
    Enemy_update self g = Ret self' (after_check g self')
    /\ on_track (home g) self'.
Proof.
  intros Htrack.
  assert (Hst : exists d, enemy_state self = FencingEnemy 4 d).
  { destruct Htrack as (_ & _ & Hedge).
    destruct (enemy_state self) as [| | |speed d|]; try contradiction.
    exists d. destruct d; destruct Hedge as [-> _]; reflexivity. }
  destruct Hst as [d Hst].
  rewrite (Enemy_update_fencing d self g Hst).
  eexists; split; [reflexivity|]. now apply fencing_move_on_track.
Qed.

(** X7: a fencing enemy on the track (on the edge of the 80-square it is
    walking along) is still on the track after any number of updates: once
    there it patrols the perimeter of the square. *)
Theorem FencingEnemy_keeps_track (n : nat) (self : Enemy) (g : Game) :
  on_track (home g) self ->
  exists self' g',
    Enemy_updates n self g = Ret self' g'
    /\ on_track (home g) self'
    /\ home g' = home g.
Proof.
  intros Htrack.
  apply (Enemy_updates_invariant (home g) (on_track (home g)));
    [|reflexivity|exact Htrack].
  intros e g1 Hh; rewrite <- Hh. apply on_track_step.
Qed.

Lemma FencingEnemy_keeps_track_witness :
  exists self' g',
    Enemy_updates 5 (mkEnemy 740 225 20 "blue" (FencingEnemy 4 Down)) duel
    = Ret self' g'
    /\ on_track (home duel) self'
    /\ home g' = home duel.
Proof.
  apply (FencingEnemy_keeps_track 5).
  unfold on_track; simpl. repeat split; lra.
Defined.

Lemma reaches_track_within (k : nat) :
  forall (self : Enemy) (g : Game) (d : direction),
    enemy_state self = FencingEnemy 4 d ->
    fenced (home g) self ->
    way_ahead (home g) d self <= 4 * INR k ->
    exists self' g',
      Enemy_updates (S k) self g = Ret self' g'
      /\ on_track (home g) self' /\ home g' = home g.
Proof.
  induction k as [|k IH]; intros self g d Hst Hf Hway;
    destruct (fencing_move_ahead (home g) d self Hst Hf) as [Hturn Hgo];
    cbn [Enemy_updates]; unfold bind;
    rewrite (Enemy_update_fencing d self g Hst).
  - simpl in Hway. unfold ret. do 2 eexists; split; [reflexivity|].
    split; [apply Hturn; lra|apply after_check_frame].
  - rewrite S_INR in Hway.
    set (e := fencing_move (home g) 4 d self) in *.
    assert (Hh : home (after_check g e) = home g) by apply after_check_frame.
    destruct (Rle_lt_dec (way_ahead (home g) d self) 4) as [Hle|Hgt].
    + destruct (Enemy_updates_invariant (home g) (on_track (home g)))
        with (n := S k) (self := e) (g := after_check g e)
        as (e' & g' & Hr & Ht & Hh'); auto.
      * intros e1 g1 Hh1; rewrite <- Hh1. apply on_track_step.
      * now exists e', g'.
    + destruct (Hgo Hgt) as [Hst' Hway'].
      destruct (IH e (after_check g e) d Hst') as (e' & g' & Hr & Ht & Hh');
        rewrite ?Hh.
      * now apply fencing_move_fenced.
      * fold e in Hway'. lra.
      * exists e', g'. rewrite Hh in Ht, Hh'. auto.
Qed.

(** X8: a fencing enemy of speed 4 anywhere in the closed 80-square around
    Home is on the track after 21 updates: it reaches the edge ahead after at
    most 80 / 4 moves, turns there, and from then on follows the perimeter. *)
Theorem FencingEnemy_reaches_track (self : Enemy) (g : Game) :
  fenced (home g) self ->
  exists self' g',
    Enemy_updates 21 self g = Ret self' g'
    /\ on_track (home g) self'
    /\ home g' = home g.
Proof.
  intros Hf. destruct Hf as ([d Hst] & Hx & Hy).
  apply (reaches_track_within 20 self g d Hst).
  - split; [now exists d|]. split; assumption.
  - replace (INR 20) with 20 by (simpl; ring).
    unfold way_ahead; destruct d; lra.
Qed.

Lemma FencingEnemy_reaches_track_witness :
  exists self' g',
    Enemy_updates 21 blue_enemy duel = Ret self' g'
    /\ on_track (home duel) self'
    /\ home g' = home duel.
Proof.
  apply (FencingEnemy_reaches_track blue_enemy duel).
  unfold fenced; simpl. split; [exists Right; reflexivity|]. split; lra.
Defined.

(** ** Teleporting enemy: the cooldown *)

(** [n + m] updates are [n] updates followed by [m] updates. *)
Lemma Enemy_updates_add (n m : nat) (self : Enemy) (g : Game) :
  Enemy_updates (n + m) self g
  = (self <- Enemy_updates n self;; Enemy_updates m self) g.
Proof.
  revert self g; induction n as [|n IH]; intros self g; simpl.
  - reflexivity.
  - unfold bind. destruct (Enemy_update self g) as [e g1| |];
      try reflexivity.
    rewrite IH. reflexivity.
Qed.

Lemma Enemy_update_teleporting_wait (c : Z) (self : Enemy) (g : Game) :
  enemy_state self = TeleportingEnemy 60 c ->
  (c + 1 < 60)%Z ->
  let waited := set_state (TeleportingEnemy 60 (c + 1)) self in
  Enemy_update self g = Ret waited (after_check g waited).
Proof.
  intros Hst Hc waited. unfold Enemy_update; rewrite Hst.
  unfold TeleportingEnemy_update; cbv zeta; fold waited.
  destruct (Z.leb_spec 60 (c + 1)); [lia|].
  unfold bind, ret. now rewrite check_hit_eq.
Qed.

Lemma Enemy_update_teleporting_jump (c : Z) (self : Enemy) (g : Game) :
  enemy_state self = TeleportingEnemy 60 c ->
  (60 <= c + 1)%Z ->
  exists self' g',
    Enemy_update self g = Ret self' g'
    /\ player g' = player g /\ home g' = home g
    /\ enemy_state self' = TeleportingEnemy 60 0
    /\ exists ox oy, (-200 <= ox <= 200)%Z /\ (-200 <= oy <= 200)%Z
       /\ ((enemy_x self' = player_x (player g) + IZR ox
            /\ enemy_y self' = player_y (player g) + IZR oy)
           \/ (enemy_x self' = IZR (home_x (home g)) + IZR ox
               /\ enemy_y self' = IZR (home_y (home g)) + IZR oy)).
Proof.
  intros Hst Hc. unfold Enemy_update; rewrite Hst.
  unfold TeleportingEnemy_update; cbv zeta.
  destruct (Z.leb_spec 60 (c + 1)); [|lia].
  destruct (teleport_Ret (set_state (TeleportingEnemy 60 (c + 1)) self) g)
    as (e & g1 & Htp & Hp & Hh & _ & _ & Hpos).
  unfold bind; rewrite Htp; unfold ret. rewrite check_hit_eq.
  do 2 eexists; split; [reflexivity|].
  destruct (after_check_frame g1 (set_state (TeleportingEnemy 60 0) e))
    as (Hp' & Hh' & _).
  rewrite Hp', Hh', Hp, Hh. simpl. auto.
Qed.

Lemma teleporting_waits (n : nat) :
  forall (c : Z) (self : Enemy) (g : Game),
    enemy_state self = TeleportingEnemy 60 c ->
    (c + Z.of_nat n < 60)%Z ->
    exists g',
      Enemy_updates n self g
      = Ret (set_state (TeleportingEnemy 60 (c + Z.of_nat n)) self) g'
      /\ player g' = player g /\ home g' = home g /\ cursor g' = cursor g.
Proof.
  induction n as [|n IH]; intros c self g Hst Hc.
  - exists g. simpl. rewrite Z.add_0_r, <- Hst.
    split; [destruct self; reflexivity|auto].
  - cbn [Enemy_updates]; unfold bind.
    rewrite (Enemy_update_teleporting_wait c self g Hst) by lia.
    set (e := set_state (TeleportingEnemy 60 (c + 1)) self).
    destruct (IH (c + 1)%Z e (after_check g e)) as (g' & Hr & Hp & Hh & Hcur);
      [reflexivity|lia|].
    exists g'. rewrite Hr.
    replace (c + 1 + Z.of_nat n)%Z with (c + Z.of_nat (S n))%Z by lia.
    split; [reflexivity|].
    rewrite Hp, Hh, Hcur. unfold after_check.
    destruct (hits_player g e); simpl; auto.
Qed.

(** X9: a teleporting enemy whose counter stays below 60 over [n] updates
    does not move in any of them and draws no random number; only its
    counter grows, by [n]. *)
Theorem TeleportingEnemy_waits (n : nat) (c : Z) (self : Enemy) (g : Game) :
  enemy_state self = TeleportingEnemy 60 c ->
  (c + Z.of_nat n < 60)%Z ->
  exists self' g',
    Enemy_updates n self g = Ret self' g'
    /\ enemy_x self' = enemy_x self /\ enemy_y self' = enemy_y self
    /\ enemy_state self' = TeleportingEnemy 60 (c + Z.of_nat n)
    /\ cursor g' = cursor g.
Proof.
  intros Hst Hc.
  destruct (teleporting_waits n c self g Hst Hc) as (g' & Hr & _ & _ & Hcur).
  do 2 eexists; split; [exact Hr|]. simpl; auto.
Qed.

Lemma TeleportingEnemy_waits_witness :
  exists self' g',
    Enemy_updates 59 black_enemy duel = Ret self' g'
    /\ enemy_x self' = enemy_x black_enemy
    /\ enemy_y self' = enemy_y black_enemy
    /\ enemy_state self' = TeleportingEnemy 60 (0 + Z.of_nat 59)
    /\ cursor g' = cursor duel.
Proof.
  apply (TeleportingEnemy_waits 59 0 black_enemy duel); [reflexivity|lia].
Defined.

(** X10: a teleporting enemy with counter [c] below 60 teleports at its
    update number [60 - c], not before: after that many updates its counter
    is 0 and it stands within 200 on each axis of the player or of Home. *)
Theorem TeleportingEnemy_period (c : Z) (self : Enemy) (g : Game) :
  enemy_state self = TeleportingEnemy 60 c ->
  (0 <= c < 60)%Z ->
  exists self' g',
    Enemy_updates (Z.to_nat (60 - c)) self g = Ret self' g'
    /\ enemy_state self' = TeleportingEnemy 60 0
    /\ exists ox oy, (-200 <= ox <= 200)%Z /\ (-200 <= oy <= 200)%Z
       /\ ((enemy_x self' = player_x (player g) + IZR ox
            /\ enemy_y self' = player_y (player g) + IZR oy)
           \/ (enemy_x self' = IZR (home_x (home g)) + IZR ox
               /\ enemy_y self' = IZR (home_y (home g)) + IZR oy)).
Proof.
  intros Hst Hc.
  assert (Hn : exists n, Z.to_nat (60 - c) = (n + 1)%nat
                         /\ (c + Z.of_nat n = 59)%Z).
  { exists (Z.to_nat (59 - c)). split; lia. }
  destruct Hn as (n & -> & Hn).
  destruct (teleporting_waits n c self g Hst) as (g1 & Hr & Hp & Hh & _);
    [lia|].
  set (e := set_state (TeleportingEnemy 60 (c + Z.of_nat n)) self) in *.
  destruct (Enemy_update_teleporting_jump (c + Z.of_nat n) e g1)
    as (e' & g' & Hjump & _ & _ & Hst' & Hpos); [reflexivity|lia|].
  rewrite Hp, Hh in Hpos.
  exists e', g'. split; [|split; [exact Hst'|exact Hpos]].
  rewrite Enemy_updates_add. unfold bind; rewrite Hr.
  cbn [Enemy_updates]. unfold bind; now rewrite Hjump.
Qed.

Lemma TeleportingEnemy_period_witness :
  exists self' g',
    Enemy_updates (Z.to_nat (60 - 0)) black_enemy duel = Ret self' g'
    /\ enemy_state self' = TeleportingEnemy 60 0.
Proof.
  destruct (TeleportingEnemy_period 0 black_enemy duel)
    as (e & g' & Hr & Hst & _); [reflexivity|lia|].
  now exists e, g'.
Defined.

(** ** Demo enemy *)

(** X11: [n] updates move a demo enemy by [n] on both axes, whatever the
    size of the arena: it walks down the diagonal without bound. *)
Theorem DemoEnemy_walks_diagonal (n : nat) (self : Enemy) (g : Game) :
  enemy_state self = DemoEnemy ->
  exists self' g',
    Enemy_updates n self g = Ret self' g'
    /\ enemy_x self' = enemy_x self + INR n
    /\ enemy_y self' = enemy_y self + INR n
    /\ enemy_state self' = DemoEnemy.
Proof.
  revert self g; induction n as [|n IH]; intros self g Hst.
  - exists self, g. simpl. repeat split; auto; ring.
  - cbn [Enemy_updates]; unfold bind, Enemy_update at 1. rewrite Hst.
    pose proof (DemoEnemy_update_eq self g) as H; cbv zeta in H. rewrite H.
    destruct (IH (set_y (enemy_y self + 1) (set_x (enemy_x self + 1) self))
                 (after_check g (set_y (enemy_y self + 1)
                                       (set_x (enemy_x self + 1) self))))
      as (e & g' & Hr & Hx & Hy & Hst'); [exact Hst|].
    exists e, g'. split; [exact Hr|].
    rewrite Hx, Hy, S_INR; simpl. repeat split; auto; ring.
Qed.

Lemma DemoEnemy_walks_diagonal_witness :
  exists self' g',
    Enemy_updates 7 red_enemy duel = Ret self' g'
    /\ enemy_x self' = enemy_x red_enemy + INR 7
    /\ enemy_y self' = enemy_y red_enemy + INR 7
    /\ enemy_state self' = DemoEnemy.
Proof. apply (DemoEnemy_walks_diagonal 7 red_enemy duel); reflexivity. Defined.

(** ** Random-walk enemy *)

(** X12: the direction [create] picks gives a random-walk enemy of speed 3
    one of the four velocities (0, 3), (0, -3), (-3, 0), (3, 0) and leaves
    its position alone; one random number is drawn. *)
Theorem choose_random_direction_axis (self : Enemy) (g : Game) :
  exists self' g',
    choose_random_direction 3 self g = Ret self' g'
    /\ axis_velocity self'
    /\ enemy_x self' = enemy_x self /\ enemy_y self' = enemy_y self
    /\ enemy_size self' = enemy_size self
    /\ cursor g' = S (cursor g).
Proof.
  unfold choose_random_direction, choice, bind, axis_velocity.
  assert (Hidx : (Z.to_nat (draws g (cursor g) mod Z.of_nat 4) < 4)%nat).
  { pose proof (Z.mod_pos_bound (draws g (cursor g)) (Z.of_nat 4)). lia. }
  change (S (List.length ["down"; "left"; "right"]%string)) with 4%nat.
  destruct (Z.to_nat (draws g (cursor g) mod Z.of_nat 4))
    as [|[|[|[|k]]]]; try lia;
    cbn [nth String.eqb Ascii.eqb Bool.eqb]; unfold ret;
    do 2 eexists; (split; [reflexivity|]); simpl;
    (split; [do 2 eexists; split; [reflexivity|]; lra|auto]).
Qed.

Lemma Enemy_update_random_walk (dx dy speed : R) (self : Enemy) (g : Game) :
  enemy_state self = RandomWalkEnemy dx dy speed ->
  exists dx' dy',
    (dx' = dx \/ dx' = - dx) /\ (dy' = dy \/ dy' = - dy)
    /\ let moved := mkEnemy (enemy_x self + dx) (enemy_y self + dy)
                            (enemy_size self) (enemy_color self)
                            (RandomWalkEnemy dx' dy' speed) in
       Enemy_update self g = Ret moved (after_check g moved).
Proof.
  intros Hst. unfold Enemy_update; rewrite Hst.
  pose proof (RandomWalkEnemy_update_eq dx dy speed self g) as H;
    cbv zeta in H.
  do 2 eexists; split; [|split; [|exact H]];
    repeat match goal with
    | |- context [if ?c then _ else _] => destruct c
    end; lra.
Qed.

(** X13: a random-walk enemy with one of the four axis velocities keeps
    such a velocity through any number of updates, bounces included, and
    moves on a straight line: a vertical mover never changes its x, a
    horizontal mover never changes its y. *)
Theorem RandomWalkEnemy_straight_line (n : nat) (dx dy : R) (self : Enemy)
  (g : Game) :
  enemy_state self = RandomWalkEnemy dx dy 3 ->
  axis_velocity self ->
  exists self' g',
    Enemy_updates n self g = Ret self' g'
    /\ axis_velocity self'
    /\ (dx = 0 -> enemy_x self' = enemy_x self)
    /\ (dy = 0 -> enemy_y self' = enemy_y self).
Proof.
  intros Hst Hax.
  pose (I := fun e : Enemy =>
    exists vx vy,
      enemy_state e = RandomWalkEnemy vx vy 3
      /\ ((vx = 0 /\ (vy = 3 \/ vy = - 3)) \/ (vy = 0 /\ (vx = 3 \/ vx = - 3)))
      /\ (dx = 0 -> vx = 0 /\ enemy_x e = enemy_x self)
      /\ (dy = 0 -> vy = 0 /\ enemy_y e = enemy_y self)).
  destruct (Enemy_updates_invariant (home g) I) with (n := n) (self := self)
    (g := g) as (e & g' & Hr & (vx & vy & Hst' & Hv & Hx & Hy) & _).
  - intros e g1 _ (vx & vy & Hst1 & Hv & Hx & Hy).
    destruct (Enemy_update_random_walk vx vy 3 e g1 Hst1)
      as (vx' & vy' & Hvx & Hvy & H); cbv zeta in H.
    eexists; split; [exact H|].
    exists vx', vy'; simpl. split; [reflexivity|].
    split; [lra|]. split; intros H0.
    + destruct (Hx H0) as [-> ->]. split; lra.
    + destruct (Hy H0) as [-> ->]. split; lra.
  - reflexivity.
  - destruct Hax as (vx & vy & Hst' & Hv). rewrite Hst in Hst'.
    injection Hst' as <- <-. exists dx, dy. auto.
  - exists e, g'. split; [exact Hr|]. split; [now exists vx, vy|].
    split; intros H0; [apply Hx|apply Hy]; exact H0.
Qed.

Lemma RandomWalkEnemy_straight_line_witness :
  exists self' g',
    Enemy_updates 200 (mkEnemy 300 200 20 "red" (RandomWalkEnemy 0 3 3)) duel
    = Ret self' g'
    /\ axis_velocity self'
    /\ enemy_x self' = 300.
Proof.
  destruct (RandomWalkEnemy_straight_line 200 0 3
              (mkEnemy 300 200 20 "red" (RandomWalkEnemy 0 3 3)) duel)
    as (e & g' & Hr & Hax & Hx & _).
  - reflexivity.
  - exists 0, 3. split; [reflexivity|]. left; split; [reflexivity|now left].
  - exists e, g'. split; [exact Hr|]. split; [exact Hax|]. now apply Hx.
Defined.

Lemma after_check_screen (g : Game) (self : Enemy) :
  screen_width (after_check g self) = screen_width g
  /\ screen_height (after_check g self) = screen_height g.
Proof. unfold after_check; destruct (hits_player g self); simpl; auto. Qed.

(** One update of a horizontal mover that ends in the band of the left
    wall, short of the right one: it moves and its velocity is reversed. *)
Lemma random_walk_band_step (dx : R) (self : Enemy) (g : Game) :
  enemy_state self = RandomWalkEnemy dx 0 3 ->
  enemy_x self + dx + IZR (enemy_size self) / 2 < IZR (screen_width g) ->
  enemy_x self + dx - IZR (enemy_size self) / 2 <= 0 ->
  let moved := mkEnemy (enemy_x self + dx) (enemy_y self) (enemy_size self)
                       (enemy_color self) (RandomWalkEnemy (- dx) 0 3) in
  Enemy_update self g = Ret moved (after_check g moved).
Proof.
  intros Hst Hright Hleft moved.
  unfold Enemy_update; rewrite Hst.
  pose proof (RandomWalkEnemy_update_eq dx 0 3 self g) as H; cbv zeta in H.
  rewrite H; clear H.
  replace (Py.ge (enemy_x self + dx + IZR (enemy_size self) / 2)
                 (IZR (screen_width g))) with false
    by (symmetry; apply PyFacts.ge_false; lra).
  replace (Py.le (enemy_x self + dx - IZR (enemy_size self) / 2) 0) with true
    by (symmetry; apply PyFacts.le_true; lra).
  replace (dx * -1) with (- dx) by ring.
  replace (enemy_y self + 0) with (enemy_y self) by ring.
  replace (0 * -1) with 0 by ring.
  assert (Hdy : forall (a b : bool), (if a then 0 else if b then 0 else 0) = 0)
    by (intros [] []; reflexivity).
  rewrite Hdy. reflexivity.
Qed.

(** X14: a random-walk enemy moving horizontally that is within the band
    of the left wall ([x - size / 2 <= 0]) both where it stands and where
    its next move takes it has its velocity reversed by every update: it
    steps back and forth between the two points and is back in exactly the
    same state after every second update, never leaving the wall. *)
Theorem RandomWalkEnemy_stuck_at_wall (n : nat) (dx : R) (self : Enemy)
  (g : Game) :
  enemy_state self = RandomWalkEnemy dx 0 3 ->
  enemy_x self - IZR (enemy_size self) / 2 <= 0 ->
  enemy_x self + dx - IZR (enemy_size self) / 2 <= 0 ->
  enemy_x self + IZR (enemy_size self) / 2 < IZR (screen_width g) ->
  enemy_x self + dx + IZR (enemy_size self) / 2 < IZR (screen_width g) ->
  exists g',
    Enemy_updates (2 * n) self g = Ret self g'
    /\ screen_width g' = screen_width g.
Proof.
  intros Hst Hl0 Hl1 Hr0 Hr1. revert g Hr0 Hr1.
  induction n as [|n IH]; intros g Hr0 Hr1.
  - exists g. split; reflexivity.
  - replace (2 * S n)%nat with (S (S (2 * n))) by lia.
    cbn [Enemy_updates]. unfold bind at 1.
    rewrite (random_walk_band_step dx self g Hst Hr1 Hl1).
    set (e1 := mkEnemy (enemy_x self + dx) (enemy_y self) (enemy_size self)
                       (enemy_color self) (RandomWalkEnemy (- dx) 0 3)).
    destruct (after_check_screen g e1) as [Hw1 _].
    unfold bind at 1.
    rewrite (random_walk_band_step (- dx) e1 (after_check g e1)); try reflexivity;
      [|rewrite Hw1; simpl; lra|simpl; lra].
    simpl enemy_x; simpl enemy_y; simpl enemy_size; simpl enemy_color.
    replace (mkEnemy (enemy_x self + dx + - dx) (enemy_y self)
                     (enemy_size self) (enemy_color self)
                     (RandomWalkEnemy (- - dx) 0 3)) with self.
    + match goal with |- context [Enemy_updates _ self ?g2] =>
        destruct (IH g2) as (g' & Hr & Hw) end.
      * rewrite (proj1 (after_check_screen _ _)), Hw1. exact Hr0.
      * rewrite (proj1 (after_check_screen _ _)), Hw1. exact Hr1.
      * exists g'. split; [exact Hr|].
        rewrite Hw, (proj1 (after_check_screen _ _)), Hw1. reflexivity.
    + destruct self as [x y sz col st]; simpl in *. subst st.
      f_equal; [ring|f_equal; ring].
Qed.

(** A random-walk enemy spawned at x = 5, heading right. *)
Lemma RandomWalkEnemy_stuck_at_wall_witness :
  exists g',
    Enemy_updates (2 * 50) (mkEnemy 5 200 20 "red" (RandomWalkEnemy 3 0 3)) duel
    = Ret (mkEnemy 5 200 20 "red" (RandomWalkEnemy 3 0 3)) g'
    /\ screen_width g' = screen_width duel.
Proof.
  apply (RandomWalkEnemy_stuck_at_wall 50 3
           (mkEnemy 5 200 20 "red" (RandomWalkEnemy 3 0 3)) duel);
    [reflexivity|simpl; lra..].
Defined.

(** ** Spawning over the arena *)

(** X15: on an arena of non-negative width and height the chasing callback
    returns: it appends one chasing enemy of speed 4 and size 20 to both
    [enemies] and the elements, at integer coordinates inside the arena
    ([0 <= x <= screen_width], [0 <= y <= screen_height]), and re-arms itself
    1000 ms later.  With a negative width or height [randint] raises
    [ValueError] and the callback with it. *)
Theorem create_chasing_enemy_in_arena (x0 y0 : R) (g : Game) :
  ((0 <= screen_width g)%Z -> (0 <= screen_height g)%Z ->
   exists e x y g',
     create_chasing_enemy x0 y0 g = Ret tt g'
     /\ enemies g' = enemies g ++ [e]
     /\ elements g' = elements g ++ [ElemEnemy e]
     /\ (0 <= x <= screen_width g)%Z /\ (0 <= y <= screen_height g)%Z
     /\ enemy_x e = IZR x /\ enemy_y e = IZR y
     /\ enemy_state e = ChasingEnemy 4 /\ enemy_size e = 20%Z
     /\ timers g' = insert_timer (clock g + 1000) cb_create_chasing_enemy
                                 (timers g))
  /\ ((screen_width g < 0)%Z \/ (screen_height g < 0)%Z ->
      create_chasing_enemy x0 y0 g = Raise ValueError).
Proof.
  split.
  - intros Hw Hh. unfold create_chasing_enemy, bind at 1, get.
    unfold bind at 1. rewrite (randint_eq 0 (screen_width g)) by exact Hw.
    unfold bind at 1. rewrite (randint_eq 0 (screen_height g)) by exact Hh.
    pose proof (Z.mod_pos_bound (draws g (cursor g)) (screen_width g - 0 + 1)).
    pose proof (Z.mod_pos_bound (draws g (S (cursor g)))
                                (screen_height g - 0 + 1)).
    do 4 eexists. split; [reflexivity|]. simpl.
    repeat split; try reflexivity; lia.
  - intros Hneg. unfold create_chasing_enemy, bind at 1, get.
    unfold bind at 1, randint at 1.
    destruct (Z.ltb_spec (screen_width g) 0) as [Hw|Hw]; [reflexivity|].
    unfold bind at 1, randint at 1. simpl.
    destruct (Z.ltb_spec (screen_height g) 0) as [Hh|Hh]; [reflexivity|lia].
Qed.

Lemma create_chasing_enemy_in_arena_witness :
  exists e x y g',
    create_chasing_enemy 0 0 duel = Ret tt g'
    /\ enemies g' = enemies duel ++ [e]
    /\ elements g' = elements duel ++ [ElemEnemy e]
    /\ (0 <= x <= screen_width duel)%Z /\ (0 <= y <= screen_height duel)%Z
    /\ enemy_x e = IZR x /\ enemy_y e = IZR y
    /\ enemy_state e = ChasingEnemy 4 /\ enemy_size e = 20%Z
    /\ timers g' = insert_timer (clock duel + 1000) cb_create_chasing_enemy
                                (timers duel).
Proof.
  apply (proj1 (create_chasing_enemy_in_arena 0 0 duel)); simpl; lia.
Defined.

Lemma for_range_effect_arena (P : Z -> Z -> Enemy -> Prop) (body : M unit) :
  (forall g g', body g = Ret tt g' ->
     exists e c, P (screen_width g) (screen_height g) e
       /\ g' = evolve g [e] [ElemEnemy e] (clock g) (timers g) c) ->
  forall n g g', for_range n body g = Ret tt g' ->
    exists l c, List.length l = n
      /\ Forall (P (screen_width g) (screen_height g)) l
      /\ g' = evolve g l (map ElemEnemy l) (clock g) (timers g) c.
Proof.
  intros Hbody; induction n as [|n IH]; intros g g' H; simpl in H.
  - injection H as <-. exists [], (cursor g).
    split; [reflexivity|split; [constructor|apply evolve_id]].
  - apply bind_inv in H as ([] & g1 & Hb & H).
    apply Hbody in Hb as (e & c1 & HP & ->).
    apply IH in H as (l & c & Hlen & Hall & ->).
    exists (e :: l), c. simpl in *.
    split; [now rewrite Hlen|split; [now constructor|]].
    now rewrite evolve_evolve.
Qed.

(** X16: on an arena of non-negative width and height the teleporting
    callback returns: it appends five teleporting enemies (cooldown 60,
    counter 0, size 20) to both [enemies] and the elements, each at integer
    coordinates inside the arena (or all at the position they were created
    at, when that has a coordinate equal to 100), and re-arms itself 500 ms
    later. *)
Theorem create_teleporting_enemy_in_arena (x0 y0 : R) (g : Game) :
  (0 <= screen_width g)%Z -> (0 <= screen_height g)%Z ->
  exists l g',
    create_teleporting_enemy x0 y0 g = Ret tt g'
    /\ enemies g' = enemies g ++ l
    /\ elements g' = elements g ++ map ElemEnemy l
    /\ List.length l = 5%nat
    /\ Forall (fun e =>
                 enemy_state e = TeleportingEnemy 60 0
                 /\ enemy_size e = 20%Z
                 /\ arena_position x0 y0 (screen_width g) (screen_height g) e)
              l
    /\ timers g' = insert_timer (clock g + 500) cb_create_teleporting_enemy
                                (timers g).
Proof.
  intros Hw Hh.
  assert (Hex : exists g', create_teleporting_enemy x0 y0 g = Ret tt g').
  { unfold create_teleporting_enemy.
    match goal with |- context [for_range 5 ?b] =>
      destruct (for_range_total
                  (fun g => (0 <= screen_width g)%Z /\ (0 <= screen_height g)%Z)
                  b) with (n := 5%nat) (g := g) as (g1 & Hfor & _);
        [|split; assumption|]
    end.
    - clear; intros g (Hw & Hh). unfold bind at 1, get.
      destruct (Py.ne _ 100 && Py.ne _ 100).
      + unfold bind at 1 2.
        rewrite (randint_eq 0 (screen_width g)) by exact Hw. unfold bind at 1.
        rewrite (randint_eq 0 (screen_height g)) by exact Hh.
        eexists; split; [reflexivity|]. split; assumption.
      + eexists; split; [reflexivity|]. split; assumption.
    - rewrite (bind_Ret _ _ _ _ _ Hfor). eexists; reflexivity. }
  destruct Hex as (g' & H). exists (skipn (List.length (enemies g)) (enemies g')), g'.
  split; [exact H|].
  unfold create_teleporting_enemy in H.
  apply bind_inv in H as ([] & g1 & Hfor & H).
  apply (for_range_effect_arena
           (fun w h e => enemy_state e = TeleportingEnemy 60 0
                         /\ enemy_size e = 20%Z
                         /\ arena_position x0 y0 w h e)) in Hfor
    as (l & c & Hlen & Hall & ->).
  - rewrite after_evolve in H; injection H as <-.
    rewrite evolve_evolve, !app_nil_r; simpl.
    rewrite skipn_app, skipn_all, Nat.sub_diag; simpl.
    auto 10.
  - clear; intros g g' H.
    apply bind_inv in H as (g0 & g1 & Hget & H); injection Hget as <- <-.
    apply bind_inv in H as (e & g2 & He & H).
    rewrite add_enemy_evolve in H; injection H as <-.
    exists e. unfold arena_position.
    destruct (Py.ne _ 100 && Py.ne _ 100) eqn:Hguard.
    + apply andb_true_iff in Hguard as [Hx Hy].
      apply PyFacts.ne_true in Hx, Hy; simpl in Hx, Hy.
      apply bind_inv in He as (x & g3 & Hrx & He).
      apply bind_inv in He as (y & g4 & Hry & He).
      injection He as <- <-.
      apply randint_evolve in Hrx as [-> Bx], Hry as [-> By].
      rewrite !evolve_evolve; simpl.
      eexists; split; [|reflexivity]; simpl.
      split; [reflexivity|split; [reflexivity|]].
      left. split; [exact Hx|split; [exact Hy|]]. now exists x, y.
    + injection He as <- <-. exists (cursor g); simpl.
      split; [|reflexivity]. split; [reflexivity|split; [reflexivity|]].
      right. apply andb_false_iff in Hguard.
      rewrite !PyFacts.ne_false in Hguard. simpl in Hguard. tauto.
Qed.

Lemma create_teleporting_enemy_in_arena_witness :
  exists l g',
    create_teleporting_enemy 0 0 duel = Ret tt g'
    /\ enemies g' = enemies duel ++ l
    /\ List.length l = 5%nat.
Proof.
  destruct (create_teleporting_enemy_in_arena 0 0 duel)
    as (l & g' & Hr & Hen & _ & Hlen & _); [simpl; lia..|].
  now exists l, g'.
Defined.

(** ** The fencing wave comes once *)

Lemma pending_fencing_insert (t : Z) (cb : callback) (tm : list (Z * callback)) :
  pending_fencing (insert_timer t cb tm)
  = (pending_fencing tm
     + match cb with cb_create_fencing_enemy => 1 | _ => 0 end)%nat.
Proof.
  unfold pending_fencing. induction tm as [|[t' cb'] tm IH]; simpl.
  - destruct cb; reflexivity.
  - destruct (t <? t')%Z; simpl.
    + destruct cb, cb'; simpl; lia.
    + destruct cb'; simpl; rewrite IH; lia.
Qed.

Lemma run_timers_fencing_once (x0 y0 : R) (steps fuel : nat) (t_end : Z) :
  forall g g',
    (pending_fencing (timers g) = 1%nat
     /\ count is_fencing (enemies g) = 0%nat)
    \/ (pending_fencing (timers g) = 0%nat
        /\ count is_fencing (enemies g) = 15%nat) ->
    run_timers x0 y0 steps fuel t_end g = Ret tt g' ->
    (pending_fencing (timers g') = 1%nat
     /\ count is_fencing (enemies g') = 0%nat)
    \/ (pending_fencing (timers g') = 0%nat
        /\ count is_fencing (enemies g') = 15%nat).
Proof.
  induction steps as [|steps IH]; intros g g' HJ H; cbn [run_timers] in H;
    destruct (timers g) as [|[t cb] rest] eqn:Htm;
    try (injection H as <-; simpl; rewrite ?Htm; exact HJ);
    destruct (t <=? t_end)%Z; try discriminate;
    try (injection H as <-; simpl; rewrite ?Htm; exact HJ).
  apply bind_inv in H as ([] & g1 & Hput & H). injection Hput as <-.
  apply bind_inv in H as ([] & g2 & Hfire & H).
  apply (IH g2 g'); [|exact H]. clear IH H.
  apply fire_effect in Hfire as (en & el & c & -> & Hcensus).
  unfold census in Hcensus; simpl in Hcensus. simpl.
  unfold pending_fencing in HJ; simpl in HJ. fold (pending_fencing rest) in HJ.
  destruct cb; simpl in Hcensus, HJ; injection Hcensus as _ _ Hf _ _;
    simpl; rewrite ?pending_fencing_insert; unfold pending_fencing in *; lia.
Qed.

(** X17: however long the timers of a session run, the fencing callback
    fires at most once: [enemies] holds no fencing enemy while its timer is
    pending and exactly fifteen once it is gone, never more. *)
Theorem fencing_wave_once (x0 y0 : R) (w h lvl : Z) (dr : nat -> Z)
  (steps fuel : nat) (t_end : Z) (g0 g' : Game) :
  init_game x0 y0 w h lvl dr = Ret tt g0 ->
  run_timers x0 y0 steps fuel t_end g0 = Ret tt g' ->
  (pending_fencing (timers g') = 1%nat
   /\ count is_fencing (enemies g') = 0%nat)
  \/ (pending_fencing (timers g') = 0%nat
      /\ count is_fencing (enemies g') = 15%nat).
Proof.
  intros Hinit Hrun.
  destruct (init_game_Ret x0 y0 w h lvl dr)
    as (g & Hinit' & _ & _ & _ & _ & _ & Hen & _ & _ & Htm).
  rewrite Hinit in Hinit'; injection Hinit' as <-.
  apply (run_timers_fencing_once x0 y0 steps fuel t_end g0 g'); [|exact Hrun].
  left. rewrite Htm, Hen. split; reflexivity.
Qed.

Lemma fencing_wave_once_witness :
  exists g0 g',
    init_game 0 0 800 500 1 zero_draws = Ret tt g0
    /\ run_timers 0 0 10 1 4000 g0 = Ret tt g'
    /\ ((pending_fencing (timers g') = 1%nat
         /\ count is_fencing (enemies g') = 0%nat)
        \/ (pending_fencing (timers g') = 0%nat
            /\ count is_fencing (enemies g') = 15%nat)).
Proof.
  destruct (init_game_Ret 0 0 800 500 1 zero_draws)
    as (g0 & Hinit & Hw & Hh & Hdr & Hhome & _).
  assert (Hg0 : ready g0)
    by (apply (ready_zero_draws 800 500); first [assumption | lia]).
  destruct (scheduler_run 0 0 800 500 1 zero_draws 0 g0 Hinit Hg0)
    as (g' & Hrun & _).
  exists g0, g'. split; [exact Hinit|split; [exact Hrun|]].
  exact (fencing_wave_once 0 0 800 500 1 zero_draws 10 1 4000 g0 g' Hinit Hrun).
Defined.

(** ** The start of a session *)

(** X18: [init_game] puts Home at [(screen_width - 100, screen_height // 2)]
    and the player at [(50, screen_height // 2)], on the same line; Home
    contains the player from the start exactly when the width of the arena
    is between 140 and 160. *)
Theorem init_game_player_at_home (x0 y0 : R) (w h lvl : Z) (dr : nat -> Z)
  (g0 : Game) :
  init_game x0 y0 w h lvl dr = Ret tt g0 ->
  player_y (player g0) = IZR (home_y (home g0))
  /\ (Home_contains (home g0) (player_x (player g0)) (player_y (player g0))
      = true <-> (140 <= w <= 160)%Z).
Proof.
  intros Hinit.
  destruct (init_game_Ret x0 y0 w h lvl dr)
    as (g & Hinit' & _ & _ & _ & Hhome & Hp & _).
  rewrite Hinit in Hinit'; injection Hinit' as <-.
  rewrite Hhome, Hp; simpl. split; [reflexivity|].
  unfold Home_contains; simpl.
  rewrite !andb_true_iff, !PyFacts.le_true, minus_IZR.
  split.
  - intros [[H1 H2] _]. split; apply le_IZR; rewrite ?minus_IZR; simpl; lra.
  - intros [H1 H2]. apply IZR_le in H1, H2. simpl in *. lra.
Qed.

Lemma init_game_player_at_home_witness :
  exists g0,
    init_game 0 0 150 500 1 zero_draws = Ret tt g0
    /\ Home_contains (home g0) (player_x (player g0)) (player_y (player g0))
       = true.
Proof.
  destruct (init_game_Ret 0 0 150 500 1 zero_draws) as (g0 & Hinit & _).
  exists g0. split; [exact Hinit|].
  apply (proj2 (init_game_player_at_home 0 0 150 500 1 zero_draws g0 Hinit)).
  lia.
Defined.

(** ** From the fencing spawn to the patrol *)

(** X19: when the position an enemy is created at shares no coordinate
    with Home, every enemy the fencing callback appends starts as a fencing
    enemy of speed 4 heading right, inside the 80-square around Home and
    outside Home itself, and is on the perimeter track after 21 updates. *)
Theorem create_fencing_enemy_patrols (x0 y0 : R) (fuel : nat) (g g' : Game) :
  create_fencing_enemy x0 y0 fuel g = Ret tt g' ->
  x0 <> IZR (home_x (home g)) ->
  y0 <> IZR (home_y (home g)) ->
  exists l,
    enemies g' = enemies g ++ l
    /\ Forall (fun e =>
                 enemy_state e = FencingEnemy 4 Right
                 /\ fenced (home g) e
                 /\ Home_contains (home g) (enemy_x e) (enemy_y e) = false
                 /\ forall g1, home g1 = home g ->
                      exists e' g2,
                        Enemy_updates 21 e g1 = Ret e' g2
                        /\ on_track (home g) e') l.
Proof.
  intros H Hx0 Hy0.
  apply create_fencing_enemy_effect in H as (l & c & -> & _ & Hall).
  exists l. split; [reflexivity|].
  eapply Forall_impl; [|exact Hall].
  intros e (Hout & Hst & _ & Hpos).
  assert (Hf : fenced (home g) e).
  { destruct Hpos as [(x & y & Bx & By & Hx & Hy)|([Heq|Heq] & _)];
      [|contradiction..].
    split; [exists Right; exact Hst|]. rewrite Hx, Hy.
    destruct Bx as [Bx1 Bx2], By as [By1 By2].
    apply IZR_le in Bx1, Bx2, By1, By2.
    rewrite ?minus_IZR, ?plus_IZR in *. simpl in *. lra. }
  split; [exact Hst|split; [exact Hf|split; [exact Hout|]]].
  intros g1 Hh.
  destruct (reaches_track_within 20 e g1 Right Hst) as (e' & g2 & Hr & Ht & _).
  - now rewrite Hh.
  - rewrite Hh. replace (INR 20) with 20 by (simpl; ring).
    destruct Hf as (_ & Hx & _). unfold way_ahead. lra.
  - exists e', g2. rewrite Hh in Ht. auto.
Qed.

Lemma create_fencing_enemy_patrols_witness :
  exists g' l,
    create_fencing_enemy 0 0 1 duel = Ret tt g'
    /\ enemies g' = enemies duel ++ l
    /\ Forall (fun e => fenced (home duel) e) l.
Proof.
  destruct (fire_total 0 0 0 cb_create_fencing_enemy duel ready_duel)
    as (g' & H).
  destruct (create_fencing_enemy_patrols 0 0 1 duel g' H)
    as (l & Hen & Hall); [simpl; lra..|].
  exists g', l. split; [exact H|split; [exact Hen|]].
  eapply Forall_impl; [|exact Hall]. simpl; tauto.
Defined.

(** ** Degenerate sizes *)

(** X20: a Home of negative size contains no point at all; a Home of
    size 0 contains its own position and nothing else; a Home of
    non-negative size contains its position and its corners. *)
Theorem Home_contains_sizes (self : Home) :
  let hx := IZR (home_x self) in
  let hy := IZR (home_y self) in
  let s := IZR (home_size self) in
  ((home_size self < 0)%Z -> forall x y, Home_contains self x y = false)
  /\ (home_size self = 0%Z ->
        forall x y, Home_contains self x y = true <-> x = hx /\ y = hy)
  /\ ((0 <= home_size self)%Z ->
        Home_contains self hx hy = true
        /\ Home_contains self (hx + s / 2) (hy + s / 2) = true
        /\ Home_contains self (hx - s / 2) (hy - s / 2) = true).
Proof.
  intros hx hy s.
  assert (Hiff : forall x y, Home_contains self x y = true <->
            (hx - s / 2 <= x /\ x <= hx + s / 2)
            /\ (hy - s / 2 <= y /\ y <= hy + s / 2)).
  { intros x y. unfold Home_contains; cbv zeta; fold hx hy s.
    now rewrite !andb_true_iff, !PyFacts.le_true. }
  split; [|split].
  - intros Hneg x y. apply IZR_lt in Hneg; fold s in Hneg.
    apply not_true_is_false. rewrite Hiff. lra.
  - intros Hz x y. rewrite Hiff.
    assert (s = 0) by (unfold s; now rewrite Hz). lra.
  - intros Hpos. apply IZR_le in Hpos; fold s in Hpos.
    rewrite !Hiff. lra.
Qed.

Lemma Home_contains_sizes_witness :
  Home_contains far_home 700 250 = true
  /\ forall x y, Home_contains (mkHome 700 250 (-20)) x y = false.
Proof.
  split.
  - apply (proj2 (proj2 (Home_contains_sizes far_home))). simpl; lia.
  - apply (proj1 (Home_contains_sizes (mkHome 700 250 (-20)))). simpl; lia.
Defined.

(** X21: an enemy of non-positive size hits the player nowhere, not even
    standing on it; an enemy of positive size standing on the player hits. *)
Theorem hits_player_sizes (g : Game) (self : Enemy) :
  ((enemy_size self <= 0)%Z -> hits_player g self = false)
  /\ ((0 < enemy_size self)%Z ->
      enemy_x self = player_x (player g) ->
      enemy_y self = player_y (player g) ->
      hits_player g self = true).
Proof.
  split.
  - intros Hs. apply IZR_le in Hs. apply not_true_is_false.
    unfold hits_player. rewrite !andb_true_iff, !PyFacts.lt_true. lra.
  - intros Hs Hx Hy. apply IZR_lt in Hs.
    unfold hits_player. rewrite !andb_true_iff, !PyFacts.lt_true. lra.
Qed.

Lemma hits_player_sizes_witness :
  hits_player duel (mkEnemy (219 / 2) 100 0 "red" DemoEnemy) = false.
Proof.
  apply (proj1 (hits_player_sizes duel
                  (mkEnemy (219 / 2) 100 0 "red" DemoEnemy))).
  simpl; lia.
Defined.

(** ** Player: the walk to the waypoint *)

Lemma Player_update_towards (g : Game) :
  let p := player g in
  let w := waypoint g in
  let d := dist (player_x p) (player_y p) (wp_x w) (wp_y w) in
  wp_active w = true -> 0 < d ->
  exists g',
    Player_update g = Ret tt g'
    /\ dist (player_x (player g')) (player_y (player g')) (wp_x w) (wp_y w)
       = Rabs (d - player_speed p)
    /\ player_speed (player g') = player_speed p
    /\ wp_x (waypoint g') = wp_x w /\ wp_y (waypoint g') = wp_y w
    /\ wp_active (waypoint g')
       = negb (Py.lt (Rabs (d - player_speed p)) (player_speed p)).
Proof.
  intros p w d Hw Hd.
  pose proof (Player_update_Ret g) as HR; cbv zeta in HR.
  fold p w in HR. rewrite Hw in HR.
  change turtle_distance with dist in HR.
  set (g1 := if Home_contains (home g) (player_x p) (player_y p)
             then with_banner YouWin g else g) in HR.
  assert (Hg1 : waypoint g1 = w)
    by (subst g1; destruct (Home_contains _ _ _); reflexivity).
  assert (Hstep :
    dist (player_x p + (wp_x w - player_x p) / d * player_speed p)
         (player_y p + (wp_y w - player_y p) / d * player_speed p)
         (wp_x w) (wp_y w) = Rabs (d - player_speed p))
    by (apply dist_after_step; exact Hd).
  rewrite (turtle_towards_unit _ _ _ _ Hd) in HR. fold d in HR.
  unfold turtle_forward in HR; simpl in HR.
  rewrite Hstep in HR.
  destruct (Py.lt (Rabs (d - player_speed p)) (player_speed p));
    (eexists; split; [exact HR|]); simpl; rewrite ?Hg1, Hstep, ?Hw; auto 10.
Qed.

Lemma Player_walks (k : nat) :
  forall g : Game,
    let p := player g in
    let w := waypoint g in
    let d := dist (player_x p) (player_y p) (wp_x w) (wp_y w) in
    wp_active w = true ->
    0 < player_speed p ->
    INR (S k) * player_speed p <= d < (INR (S k) + 1) * player_speed p ->
    exists g',
      Player_updates (S k) g = Ret tt g'
      /\ wp_active (waypoint g') = false
      /\ wp_x (waypoint g') = wp_x w /\ wp_y (waypoint g') = wp_y w
      /\ dist (player_x (player g')) (player_y (player g')) (wp_x w) (wp_y w)
         = d - INR (S k) * player_speed p.
Proof.
  induction k as [|k IH]; intros g p w d Hw Hs Hd.
  - simpl in Hd.
    destruct (Player_update_towards g Hw) as (g' & Hr & Hdist & _ & Hx & Hy & Ha);
      [fold p w d; lra|]. fold p w d in Hdist, Ha.
    rewrite Rabs_pos_eq in Hdist, Ha by lra.
    replace (Py.lt (d - player_speed p) (player_speed p)) with true in Ha
      by (symmetry; apply PyFacts.lt_true; lra).
    exists g'. cbn [Player_updates]. unfold bind; rewrite Hr. unfold ret.
    split; [reflexivity|]. fold w. simpl INR.
    rewrite Hdist. repeat split; auto. ring.
  - rewrite S_INR in Hd.
    assert (H1 : 1 <= INR (S k)) by (rewrite S_INR; pose proof (pos_INR k); lra).
    assert (Hd2 : 2 * player_speed p <= d) by nra.
    destruct (Player_update_towards g Hw) as (g1 & Hr & Hdist & Hsp & Hx & Hy & Ha);
      [fold p w d; lra|]. fold p w d in Hdist, Ha, Hsp, Hx, Hy.
    rewrite Rabs_pos_eq in Hdist, Ha by lra.
    replace (Py.lt (d - player_speed p) (player_speed p)) with false in Ha
      by (symmetry; apply PyFacts.lt_false; lra).
    destruct (IH g1) as (g' & Hr' & Ha' & Hx' & Hy' & Hdist').
    + exact Ha.
    + rewrite Hsp; exact Hs.
    + rewrite Hx, Hy, Hdist, Hsp. lra.
    + exists g'. cbn [Player_updates] in *. unfold bind at 1. rewrite Hr.
      split; [exact Hr'|]. rewrite Hx, Hy, Hdist, Hsp in *.
      split; [exact Ha'|split; [exact Hx'|split; [exact Hy'|]]].
      rewrite Hdist', (S_INR (S k)). ring.
Qed.

(** X22: with an active waypoint at a distance [d] strictly between [k]
    and [k + 1] times the player's speed ([k >= 1]), the player needs
    exactly [k] updates: after them the waypoint is inactive and the player
    is [d - k * speed] away from it, short of one step and without having
    passed it.  (At an exact multiple of the speed the last distance test
    is on its boundary and nothing is stated.) *)
Theorem Player_arrives (k : nat) (g : Game) :
  let p := player g in
  let w := waypoint g in
  let d := dist (player_x p) (player_y p) (wp_x w) (wp_y w) in
  (1 <= k)%nat ->
  wp_active w = true ->
  0 < player_speed p ->
  INR k * player_speed p < d < (INR k + 1) * player_speed p ->
  exists g',
    Player_updates k g = Ret tt g'
    /\ wp_active (waypoint g') = false
    /\ dist (player_x (player g')) (player_y (player g')) (wp_x w) (wp_y w)
       = d - INR k * player_speed p
    /\ 0 < d - INR k * player_speed p < player_speed p.
Proof.
  intros p w d Hk Hw Hs Hd.
  destruct k as [|k]; [lia|].
  destruct (Player_walks k g Hw Hs) as (g' & Hr & Ha & _ & _ & Hdist);
    [fold p w d; lra|].
  exists g'. fold p w d in Hdist. repeat split; auto; lra.
Qed.

Lemma Player_arrives_witness :
  exists g',
    Player_updates 2 strolling = Ret tt g'
    /\ wp_active (waypoint g') = false
    /\ dist (player_x (player g')) (player_y (player g')) 112 250
       = 12 - INR 2 * 5.
Proof.
  assert (Hd : dist 100 250 112 250 = 12).
  { unfold dist.
    replace ((112 - 100) * (112 - 100) + (250 - 250) * (250 - 250))
      with (12 * 12) by ring.
    apply sqrt_square; lra. }
  destruct (Player_arrives 2 strolling) as (g' & Hr & Ha & Hdist & _);
    [lia|reflexivity|simpl; lra|simpl; rewrite Hd; lra|].
  exists g'. simpl in Hdist. rewrite Hd in Hdist. auto.
Defined.
